(** * OMI configuration validation (builder/osc/common/omi_config.go)

    A shallow embedding of [OMIConfig.Prepare], [prepareRegions],
    [stringInSlice] and [validateKmsKey], and the properties of the
    validation engine proved about it.

    Go strings are byte sequences: they are modelled as [string] (a list of
    [ascii] bytes), [len] as [String.length].  Go maps are [gmap]s, the
    region set of [prepareRegions] is a [gset].  A Go slice is a [list];
    a nil slice and an empty one are both [[]].  A pointer that may be nil
    is an [option].

    [Prepare] changes the record it is called on and [prepareRegions] also
    writes to the log: both return an [outcome], which holds the errors, the
    record as it is left and the lines logged.  The order in which a map is
    ranged over is not fixed by Go; it is a parameter of [Prepare]
    ([RangeOrder]), and what is proved holds for every order. *)

From Stdlib Require Import Ascii String.
From stdpp Require Import base list strings gmap.

Local Open Scope string_scope.
Local Open Scope list_scope.
Local Open Scope nat_scope.

Set Warnings "-clear-no-such-hyp".

(** ** The part of Go's [regexp] package that the patterns use

    The patterns of [validateKmsKey] are made of literals, bracket
    expressions, [\d], [?], [+], [{n}], [^] and [$].  All of their literals
    and classes are ASCII, so matching them against the bytes of a string is
    the same as matching them against its runes. *)

Module Regexp.

(** A position in the text that is searched: the byte offset and what is
    left of the text from there. *)
Definition pos : Type := nat * list ascii.

(** Syntax of the patterns.  [Class f] is a bracket expression or a
    Perl class such as [\d]; [Rep n r] is [r{n}]; [BeginText] is [^] and
    [EndText] is [$], which without the [m] flag only match at the two
    ends of the text. *)
Inductive regex : Type :=
| Lit (w : list ascii)
| Class (f : ascii → bool)
| BeginText
| EndText
| Seq (r1 r2 : regex)
| Opt (r : regex)
| Plus (r : regex)
| Rep (n : nat) (r : regex).

(** [strip_prefix w t] is [Some t'] when [t = w ++ t']. *)
Fixpoint strip_prefix (w t : list ascii) : option (list ascii) :=
  match w, t with
  | [], _ => Some t
  | a :: w', b :: t' => if Ascii.eqb a b then strip_prefix w' t' else None
  | _ :: _, [] => None
  end.

(** One or more rounds of [step].  A round that consumes nothing leads
    nowhere new, so only the positions that moved are continued from, and
    the text left bounds the number of rounds. *)
Fixpoint plus_loop (step : pos → list pos) (fuel : nat) (p : pos) : list pos :=
  match fuel with
  | O => []
  | S fuel' =>
      let once := step p in
      once ++ (filter (λ q : pos, length q.2 < length p.2) once
                 ≫= plus_loop step fuel')
  end.

(** [ends r p]: every position at which a match of [r] that starts at [p]
    can end. *)
Fixpoint ends (r : regex) (p : pos) : list pos :=
  match r with
  | Lit w =>
      match strip_prefix w p.2 with
      | Some t => [(length w + p.1, t)]
      | None => []
      end
  | Class f =>
      match p.2 with
      | c :: t => if f c then [(S p.1, t)] else []
      | [] => []
      end
  | BeginText => if decide (p.1 = 0) then [p] else []
  | EndText => match p.2 with [] => [p] | _ :: _ => [] end
  | Seq r1 r2 => ends r1 p ≫= ends r2
  | Opt r' => ends r' p ++ [p]
  | Plus r' => plus_loop (ends r') (S (length p.2)) p
  | Rep n r' => Nat.iter n (λ ps, ps ≫= ends r') [p]
  end.

(** The same as a relation: [Matches r p q] when a match of [r] that
    starts at [p] ends at [q]. *)
Inductive Matches : regex → pos → pos → Prop :=
| M_Lit w i t : Matches (Lit w) (i, w ++ t) (length w + i, t)
| M_Class f i c t : f c = true → Matches (Class f) (i, c :: t) (S i, t)
| M_Begin t : Matches BeginText (0, t) (0, t)
| M_End i : Matches EndText (i, []) (i, [])
| M_Seq r1 r2 p q u : Matches r1 p q → Matches r2 q u → Matches (Seq r1 r2) p u
| M_Opt_skip r p : Matches (Opt r) p p
| M_Opt_take r p q : Matches r p q → Matches (Opt r) p q
| M_Plus_one r p q : Matches r p q → Matches (Plus r) p q
| M_Plus_more r p q u :
    Matches r p q → Matches (Plus r) q u → Matches (Plus r) p u
| M_Rep_O r p : Matches (Rep 0 r) p p
| M_Rep_S n r p q u :
    Matches (Rep n r) p q → Matches r q u → Matches (Rep (S n) r) p u.

(** [Regexp.MatchString]: the text contains a match of the pattern,
    starting at any offset. *)
Definition MatchString (re : regex) (s : string) : bool :=
  let t := list_ascii_of_string s in
  existsb (λ i, match ends re (i, drop i t) with [] => false | _ :: _ => true end)
          (seq 0 (S (length t))).

(** Character ranges of bracket expressions. *)
Definition in_range (lo hi c : ascii) : bool :=
  Nat.leb (nat_of_ascii lo) (nat_of_ascii c)
  && Nat.leb (nat_of_ascii c) (nat_of_ascii hi).

Definition lit (s : string) : regex := Lit (list_ascii_of_string s).

(** [spans r L]: wherever it starts, [r] matches exactly the words of [L]. *)
Definition spans (r : regex) (L : list ascii → Prop) : Prop :=
  ∀ i t q, Matches r (i, t) q ↔ ∃ w, L w ∧ t = w ++ q.2 ∧ q.1 = length w + i.

(** [spans_to_end r L]: [r] matches what is left of the text, when that is
    in [L]. *)
Definition spans_to_end (r : regex) (L : list ascii → Prop) : Prop :=
  ∀ i t q, Matches r (i, t) q ↔ L t ∧ q = (length t + i, []).

(** [spans_from_start r L]: [r] matches the words of [L], at the start of
    the text only. *)
Definition spans_from_start (r : regex) (L : list ascii → Prop) : Prop :=
  ∀ i t q, Matches r (i, t) q ↔ i = 0 ∧ ∃ w, L w ∧ t = w ++ q.2 ∧ q.1 = length w.

Definition all_of (f : ascii → bool) (w : list ascii) : Prop :=
  Forall (λ c, f c = true) w.

End Regexp.

Import Regexp.

Local Open Scope char_scope.

(** ** validateKmsKey *)

(** [[a-f0-9-]] *)
Definition key_id_char (c : ascii) : bool :=
  in_range "a" "f" c || in_range "0" "9" c || Ascii.eqb c "-".

(** [[a-zA-Z0-9:/_-]] *)
Definition alias_char (c : ascii) : bool :=
  in_range "a" "z" c || in_range "A" "Z" c || in_range "0" "9" c
  || Ascii.eqb c ":" || Ascii.eqb c "/" || Ascii.eqb c "_" || Ascii.eqb c "-".

(** [[a-z]] *)
Definition lower_char (c : ascii) : bool := in_range "a" "z" c.

(** [\d] *)
Definition digit_char (c : ascii) : bool := in_range "0" "9" c.

Local Close Scope char_scope.

(** [[a-f0-9-]+$] *)
Definition kmsKeyIdPattern : regex := Seq (Plus (Class key_id_char)) EndText.

(** [alias/[a-zA-Z0-9:/_-]+$] *)
Definition aliasPattern : regex :=
  Seq (lit "alias/") (Seq (Plus (Class alias_char)) EndText).

(** [^arn:aws:kms:([a-z]{2}-(gov-)?[a-z]+-\d{1})?:(\d{12}):] *)
Definition kmsArnStartPattern : regex :=
  Seq BeginText
   (Seq (lit "arn:aws:kms:")
    (Seq (Opt (Seq (Rep 2 (Class lower_char))
               (Seq (lit "-")
                (Seq (Opt (lit "gov-"))
                 (Seq (Plus (Class lower_char))
                  (Seq (lit "-") (Rep 1 (Class digit_char))))))))
     (Seq (lit ":")
      (Seq (Rep 12 (Class digit_char)) (lit ":"))))).

(** The four patterns are put together with [fmt.Sprintf], which is [Seq]
    here: ["^" + kmsKeyIdPattern], ["^" + aliasPattern],
    [kmsArnStartPattern + "key/" + kmsKeyIdPattern] and
    [kmsArnStartPattern + aliasPattern]. *)
Definition validateKmsKey (kmsKey : string) : bool :=
  if MatchString (Seq BeginText kmsKeyIdPattern) kmsKey then true
  else if MatchString (Seq BeginText aliasPattern) kmsKey then true
  else if MatchString (Seq kmsArnStartPattern (Seq (lit "key/") kmsKeyIdPattern)) kmsKey
  then true
  else if MatchString (Seq kmsArnStartPattern aliasPattern) kmsKey then true
  else false.

(** ** The configuration record *)

(** Modelled from the spec: the access context "carries the region in which
    the image build originates"; the declaration of [AccessConfig] is not
    part of omi_config.go, which reads its field [RawRegion] only. *)
Record AccessConfig : Type := { RawRegion : string }.

(** An [error] built by [fmt.Errorf] is its message. *)
Definition error : Type := string.

Section Config.

(** [TagMap] is declared elsewhere in the package; its values are never
    inspected here. *)
Context {TagMap : Type}.

(** The [clean_omi_name] template filter, declared elsewhere in the
    package. *)
Variable templateCleanOMIName : string → string.

Record OMIConfig : Type := {
  OMIName : string;
  OMIDescription : string;
  OMIVirtType : string;
  OMIUsers : list string;
  OMIGroups : list string;
  OMIProductCodes : list string;
  OMIRegions : list string;
  OMISkipRegionValidation : bool;
  OMITags : TagMap;
  OMIENASupport : option bool;
  OMISriovNetSupport : bool;
  OMIForceDeregister : bool;
  OMIForceDeleteSnapshot : bool;
  OMIEncryptBootVolume : bool;
  OMIKmsKeyId : string;
  OMIRegionKMSKeyIDs : gmap string string;
  SnapshotTags : TagMap;
  SnapshotUsers : list string;
  SnapshotGroups : list string
}.

(** The assignment [c.OMIRegions = regions]. *)
Definition set_OMIRegions (c : OMIConfig) (regions : list string) : OMIConfig :=
  {| OMIName := OMIName c;
     OMIDescription := OMIDescription c;
     OMIVirtType := OMIVirtType c;
     OMIUsers := OMIUsers c;
     OMIGroups := OMIGroups c;
     OMIProductCodes := OMIProductCodes c;
     OMIRegions := regions;
     OMISkipRegionValidation := OMISkipRegionValidation c;
     OMITags := OMITags c;
     OMIENASupport := OMIENASupport c;
     OMISriovNetSupport := OMISriovNetSupport c;
     OMIForceDeregister := OMIForceDeregister c;
     OMIForceDeleteSnapshot := OMIForceDeleteSnapshot c;
     OMIEncryptBootVolume := OMIEncryptBootVolume c;
     OMIKmsKeyId := OMIKmsKeyId c;
     OMIRegionKMSKeyIDs := OMIRegionKMSKeyIDs c;
     SnapshotTags := SnapshotTags c;
     SnapshotUsers := SnapshotUsers c;
     SnapshotGroups := SnapshotGroups c |}.

(** What a call leaves behind: the errors it returns, the configuration
    record as the call leaves it, and the lines written with
    [log.Printf]. *)
Record outcome : Type := {
  out_errs : list error;
  out_config : OMIConfig;
  out_log : list string
}.

(** Go does not fix the order in which [range] visits a map, and the
    order may change from one loop to the next.  [range_at n m] is the
    order of the [n]-th [range] statement of [Prepare] over [m]: every
    entry once. *)
Record RangeOrder : Type := {
  range_at : nat → gmap string string → list (string * string);
  range_at_perm : ∀ n m, range_at n m ≡ₚ map_to_list m
}.

Fixpoint stringInSlice (s : list string) (searchstr : string) : bool :=
  match s with
  | [] => false
  | item :: s' => if decide (item = searchstr) then true else stringInSlice s' searchstr
  end.

(** *** The messages *)

Definition err_name_missing : error := "omi_name must be specified".

Definition err_not_in_omi_regions (kmsKeyRegion : string) : error :=
  "Region " +:+ kmsKeyRegion +:+ " is in region_kms_key_ids but not in omi_regions".

Definition err_not_in_region_kms_key_ids (region : string) : error :=
  "Region " +:+ region +:+ " is in omi_regions but not in region_kms_key_ids".

Definition err_share_encrypted : error :=
  "Cannot share OMI with encrypted boot volume".

Definition err_invalid_kms_key (kmsKey : string) : error :=
  kmsKey +:+ " is not a valid KMS Key Id.".

Definition err_share_snapshot : error :=
  "Cannot share snapshot encrypted with default KMS key".

Definition err_name_length : error :=
  "omi_name must be between 3 and 128 characters long".

Definition err_name_chars : error :=
  "OMIName should only contain " +:+
  "alphanumeric characters, parentheses (()), square brackets ([]), spaces " +:+
  "( ), periods (.), slashes (/), dashes (-), single quotes ('), at-signs " +:+
  "(@), or underscores(_). You can use the `clean_omi_name` template " +:+
  "filter to automatically clean your omi name.".

Definition log_drop_region (region : string) : string :=
  "Cannot copy OMI to OUTSCALE session region '" +:+ region +:+
  "', deleting it from `omi_regions`.".

(** *** prepareRegions *)

(** The variables of the loop: [regionSet], [regions], [errs] and the
    log. *)
Record region_loop : Type := {
  regionSet : gset string;
  regions : list string;
  loop_errs : list error;
  loop_log : list string
}.

(** One round of [for _, region := range c.OMIRegions]. *)
Definition prepareRegions_round (kms : gmap string string)
    (accessConfig : option AccessConfig) (st : region_loop) (region : string)
    : region_loop :=
  if decide (region ∈ regionSet st) then st
  else
    let regionSet' := {[region]} ∪ regionSet st in
    let errs :=
      if decide (0 < size kms) then
        match kms !! region with
        | Some _ => loop_errs st
        | None => loop_errs st ++ [err_not_in_region_kms_key_ids region]
        end
      else loop_errs st in
    if match accessConfig with
       | Some a => bool_decide (region = RawRegion a)
       | None => false
       end
    then {| regionSet := regionSet'; regions := regions st; loop_errs := errs;
            loop_log := loop_log st ++ [log_drop_region region] |}
    else {| regionSet := regionSet'; regions := regions st ++ [region];
            loop_errs := errs; loop_log := loop_log st |}.

Definition prepareRegions (c : OMIConfig) (accessConfig : option AccessConfig)
    : outcome :=
  if decide (0 < length (OMIRegions c)) then
    let st :=
      foldl (prepareRegions_round (OMIRegionKMSKeyIDs c) accessConfig)
            {| regionSet := ∅; regions := []; loop_errs := []; loop_log := [] |}
            (OMIRegions c) in
    {| out_errs := loop_errs st;
       out_config := set_OMIRegions c (regions st);
       out_log := loop_log st |}
  else {| out_errs := []; out_config := c; out_log := [] |}.

(** *** Prepare *)

(** Lines 66 to 76: the key ids that are checked. *)
Definition kmsKeys (ρ : RangeOrder) (c : OMIConfig) : list string :=
  let kmsKeys : list string := [] in
  let kmsKeys :=
    if decide (0 < String.length (OMIKmsKeyId c))
    then kmsKeys ++ [OMIKmsKeyId c] else kmsKeys in
  if decide (0 < size (OMIRegionKMSKeyIDs c)) then
    foldl (λ kmsKeys (kv : string * string),
             if decide (String.length kv.2 = 0)
             then kmsKeys ++ [OMIKmsKeyId c] else kmsKeys)
          kmsKeys (range_at ρ 1 (OMIRegionKMSKeyIDs c))
  else kmsKeys.

(** The interpolation context [ctx] is never read and is left out.  The
    final [if len(errs) > 0 { return errs }; return nil] returns [errs]
    either way, a nil slice being the empty list. *)
Definition Prepare (ρ : RangeOrder) (c : OMIConfig)
    (accessConfig : option AccessConfig) : outcome :=
  let errs : list error := [] in
  let errs :=
    if decide (OMIName c = "") then errs ++ [err_name_missing] else errs in
  let errs :=
    if decide (0 < size (OMIRegionKMSKeyIDs c)) then
      foldl (λ errs (kv : string * string),
               if negb (stringInSlice (OMIRegions c) kv.1)
               then errs ++ [err_not_in_omi_regions kv.1] else errs)
            errs (range_at ρ 0 (OMIRegionKMSKeyIDs c))
    else errs in
  let r := prepareRegions c accessConfig in
  let c := out_config r in
  let errs := errs ++ out_errs r in
  let errs :=
    if bool_decide (0 < length (OMIUsers c)) && OMIEncryptBootVolume c
    then errs ++ [err_share_encrypted] else errs in
  let errs :=
    foldl (λ errs kmsKey,
             if negb (validateKmsKey kmsKey)
             then errs ++ [err_invalid_kms_key kmsKey] else errs)
          errs (kmsKeys ρ c) in
  let errs :=
    if decide (0 < length (SnapshotUsers c)) then
      let errs :=
        if bool_decide (String.length (OMIKmsKeyId c) = 0) && OMIEncryptBootVolume c
        then errs ++ [err_share_snapshot] else errs in
      if decide (0 < size (OMIRegionKMSKeyIDs c)) then
        foldl (λ errs (kv : string * string),
                 if decide (String.length kv.2 = 0)
                 then errs ++ [err_share_snapshot] else errs)
              errs (range_at ρ 2 (OMIRegionKMSKeyIDs c))
      else errs
    else errs in
  let errs :=
    if bool_decide (String.length (OMIName c) < 3)
       || bool_decide (128 < String.length (OMIName c))
    then errs ++ [err_name_length] else errs in
  let errs :=
    if decide (OMIName c ≠ templateCleanOMIName (OMIName c))
    then errs ++ [err_name_chars] else errs in
  {| out_errs := errs; out_config := c; out_log := out_log r |}.

End Config.

Arguments OMIConfig : clear implicits.
Arguments outcome : clear implicits.

(** ** Notions the statements use *)

(** The entries of a list in the order in which they are first seen. *)
Definition see (acc : list string) (x : string) : list string :=
  if decide (x ∈ acc) then acc else acc ++ [x].

Definition first_seen (l : list string) : list string := foldl see [] l.

(** The position of the first occurrence of [x] in [l]. *)
Fixpoint first_index (x : string) (l : list string) : option nat :=
  match l with
  | [] => None
  | y :: l' => if decide (y = x) then Some 0 else S <$> first_index x l'
  end.

(** The entries of a [region_kms_key_ids] map whose value is empty. *)
Definition empty_valued (m : gmap string string) : list (string * string) :=
  filter (λ kv, kv.2 = "") (map_to_list m).

(** [char_in set c]: the byte [c] is one of the bytes of [set]. *)
Definition char_in (set : string) (c : ascii) : bool :=
  existsb (Ascii.eqb c) (list_ascii_of_string set).

Definition all_chars (set : string) (s : string) : Prop :=
  Forall (λ c, char_in set c = true) (list_ascii_of_string s).

Definition lower_letters : string := "abcdefghijklmnopqrstuvwxyz".
Definition upper_letters : string := "ABCDEFGHIJKLMNOPQRSTUVWXYZ".
Definition digits : string := "0123456789".

(** Shape 1, a bare key id: one or more of [a-f], [0-9] and [-]. *)
Definition is_key_id (s : string) : Prop :=
  s ≠ "" ∧ all_chars "abcdef0123456789-" s.

(** Shape 2, an alias: [alias/] and one or more of the letters, the digits
    and [:/_-]. *)
Definition is_alias (s : string) : Prop :=
  ∃ body, s = "alias/" +:+ body ∧ body ≠ ""
    ∧ all_chars (lower_letters +:+ upper_letters +:+ digits +:+ ":/_-") body.

(** The region of an ARN: two letters, a dash, [gov-] or not, a word, a
    dash, a digit. *)
Definition is_region (s : string) : Prop :=
  ∃ (cc word d : string) (gov : bool),
    s = cc +:+ "-" +:+ (if gov then "gov-" else "") +:+ word +:+ "-" +:+ d
    ∧ String.length cc = 2 ∧ all_chars lower_letters cc
    ∧ word ≠ "" ∧ all_chars lower_letters word
    ∧ String.length d = 1 ∧ all_chars digits d.

(** [arn:aws:kms:<region>:<account>:], the region being optional and the
    account twelve digits. *)
Definition is_arn_start (s : string) : Prop :=
  ∃ region account : string,
    s = "arn:aws:kms:" +:+ region +:+ ":" +:+ account +:+ ":"
    ∧ (region = "" ∨ is_region region)
    ∧ String.length account = 12 ∧ all_chars digits account.

(** Shape 3, an ARN that names a key. *)
Definition is_key_arn (s : string) : Prop :=
  ∃ start id : string, s = start +:+ "key/" +:+ id ∧ is_arn_start start ∧ is_key_id id.

(** Shape 4, an ARN that names an alias. *)
Definition is_alias_arn (s : string) : Prop :=
  ∃ start al : string, s = start +:+ al ∧ is_arn_start start ∧ is_alias al.

(** Two records agree on every field that [Prepare] reads. *)
Definition same_inputs {TagMap : Type} (c1 c2 : OMIConfig TagMap) : Prop :=
  OMIName c1 = OMIName c2
  ∧ OMIUsers c1 = OMIUsers c2
  ∧ OMIRegions c1 = OMIRegions c2
  ∧ OMIEncryptBootVolume c1 = OMIEncryptBootVolume c2
  ∧ OMIKmsKeyId c1 = OMIKmsKeyId c2
  ∧ OMIRegionKMSKeyIDs c1 = OMIRegionKMSKeyIDs c2
  ∧ SnapshotUsers c1 = SnapshotUsers c2.

(** [region] is the region of the access context, where there is one: the
    test of line 136. *)
Definition is_origin (accessConfig : option AccessConfig) (region : string) : bool :=
  match accessConfig with
  | Some a => bool_decide (region = RawRegion a)
  | None => false
  end.

(** What the loop of [prepareRegions] maintains, [seen] being the regions
    met so far in first-seen order. *)
Definition region_loop_inv (kms : gmap string string)
    (accessConfig : option AccessConfig) (st : region_loop) (seen : list string)
    : Prop :=
  (∀ y, y ∈ regionSet st ↔ y ∈ seen)
  ∧ regions st = filter (λ r, is_origin accessConfig r = false) seen
  ∧ loop_errs st =
      (if decide (0 < size kms)
       then err_not_in_region_kms_key_ids <$> filter (λ r, kms !! r = None) seen
       else [])
  ∧ loop_log st =
      log_drop_region <$> filter (λ r, is_origin accessConfig r = true) seen.

(** How many times an error is in a list of errors. *)
Definition occurrences (e : error) (errs : list error) : nat :=
  length (filter (λ x, x = e) errs).

(** The last two bytes of a message, the last one first. *)
Definition tail2 (e : error) : list ascii :=
  take 2 (reverse (list_ascii_of_string e)).

(** *** What each check of [Prepare] contributes *)

Section Checks.

Context {TagMap : Type}.
Variable templateCleanOMIName : string → string.
Variable ρ : RangeOrder.
Variable c : OMIConfig TagMap.

(** Line 46. *)
Definition name_missing_errs : list error :=
  if decide (OMIName c = "") then [err_name_missing] else [].

(** Lines 52 to 58. *)
Definition kms_region_errs : list error :=
  (λ kv, err_not_in_omi_regions kv.1) <$>
    filter (λ kv, kv.1 ∉ OMIRegions c) (range_at ρ 0 (OMIRegionKMSKeyIDs c)).

(** Line 62. *)
Definition share_errs : list error :=
  if decide (OMIUsers c ≠ [] ∧ OMIEncryptBootVolume c = true)
  then [err_share_encrypted] else [].

(** Lines 77 to 81. *)
Definition kms_key_errs : list error :=
  err_invalid_kms_key <$> filter (λ k, validateKmsKey k = false) (kmsKeys ρ c).

(** Lines 83 to 94. *)
Definition snapshot_errs : list error :=
  if decide (SnapshotUsers c = []) then []
  else
    (if decide (OMIKmsKeyId c = "" ∧ OMIEncryptBootVolume c = true)
     then [err_share_snapshot] else [])
    ++ replicate (length (empty_valued (OMIRegionKMSKeyIDs c))) err_share_snapshot.

(** Line 96. *)
Definition name_length_errs : list error :=
  if decide (3 ≤ String.length (OMIName c) ≤ 128) then [] else [err_name_length].

(** Line 100. *)
Definition name_chars_errs : list error :=
  if decide (OMIName c = templateCleanOMIName (OMIName c)) then []
  else [err_name_chars].

End Checks.

(** A [RangeOrder]: each map in the order of [map_to_list]. *)
Definition listed_order : RangeOrder :=
  {| range_at := λ _ m, map_to_list m;
     range_at_perm := λ _ m, reflexivity (map_to_list m) |}.

(** Another one: that order reversed. *)
Definition reversed_order : RangeOrder :=
  {| range_at := λ _ m, reverse (map_to_list m);
     range_at_perm := λ _ m, reverse_Permutation (map_to_list m) |}.

(** *** Sample records *)

(** A record with the given name, description, regions, default key id, key
    map and snapshot users; nothing is shared and the boot volume is not
    encrypted. *)
Definition sample (name description : string) (regions : list string)
    (key : string) (kms : gmap string string) (snapshotUsers : list string)
    : OMIConfig unit :=
  {| OMIName := name;
     OMIDescription := description;
     OMIVirtType := "";
     OMIUsers := [];
     OMIGroups := [];
     OMIProductCodes := [];
     OMIRegions := regions;
     OMISkipRegionValidation := false;
     OMITags := tt;
     OMIENASupport := None;
     OMISriovNetSupport := false;
     OMIForceDeregister := false;
     OMIForceDeleteSnapshot := false;
     OMIEncryptBootVolume := false;
     OMIKmsKeyId := key;
     OMIRegionKMSKeyIDs := kms;
     SnapshotTags := tt;
     SnapshotUsers := snapshotUsers;
     SnapshotGroups := [] |}.

(** A template filter that finds nothing to clean. *)
Definition keep_name (s : string) : string := s.

(** * Proofs *)

(** ** The matcher computes the relation *)

Module RegexpFacts.

Lemma strip_prefix_Some w t t' : strip_prefix w t = Some t' ↔ t = w ++ t'.
Proof.
  revert t. induction w as [|a w IH]; intros [|b t]; simpl.
  - split; congruence.
  - split; congruence.
  - split; [discriminate | intros [=]].
  - destruct (Ascii.eqb_spec a b) as [->|Hne].
    + rewrite IH. split; [intros ->; reflexivity | intros [=]; congruence].
    + split; [discriminate | intros [=]; congruence].
Qed.

(** A match ends further in the same text. *)
Lemma Matches_moves r p q :
  Matches r p q → ∃ w, p.2 = w ++ q.2 ∧ q.1 = length w + p.1.
Proof.
  induction 1 as [w i t|f i c t Hf|t|i|r1 r2 p q u _ [w1 [E1 O1]] _ [w2 [E2 O2]]
                 |r p|r p q _ IH|r p q _ IH|r p q u _ [w1 [E1 O1]] _ [w2 [E2 O2]]
                 |r p|n r p q u _ [w1 [E1 O1]] _ [w2 [E2 O2]]]; simpl in *;
    try (by exists []); try assumption.
  - by exists w.
  - by exists [c].
  - exists (w1 ++ w2). rewrite E1, E2, O2, O1, length_app, <-app_assoc. split; [done|lia].
  - exists (w1 ++ w2). rewrite E1, E2, O2, O1, length_app, <-app_assoc. split; [done|lia].
  - exists (w1 ++ w2). rewrite E1, E2, O2, O1, length_app, <-app_assoc. split; [done|lia].
Qed.

Lemma Matches_length r p q : Matches r p q → length q.2 ≤ length p.2.
Proof.
  intros [w [E _]]%Matches_moves. rewrite E, length_app. lia.
Qed.

Lemma Matches_stay r p q : Matches r p q → length q.2 = length p.2 → q = p.
Proof.
  intros [w [E O]]%Matches_moves Hlen. rewrite E, length_app in Hlen.
  destruct w; simpl in *; [|lia]. destruct p, q; simpl in *; congruence.
Qed.

Lemma plus_loop_mono step fuel fuel' p :
  fuel ≤ fuel' → plus_loop step fuel p ⊆ plus_loop step fuel' p.
Proof.
  revert fuel' p. induction fuel as [|fuel IH]; intros fuel' p Hle q Hq.
  - by apply elem_of_nil in Hq.
  - destruct fuel' as [|fuel']; [lia|]. simpl in *.
    apply elem_of_app in Hq as [Hq|Hq]; apply elem_of_app; [by left|right].
    apply list_elem_of_bind in Hq as (m & Hq & Hm).
    apply list_elem_of_bind. exists m. split; [|done]. apply IH; [lia|done].
Qed.

Lemma plus_loop_sound r step :
  (∀ p q, q ∈ step p → Matches r p q) →
  ∀ fuel p q, q ∈ plus_loop step fuel p → Matches (Plus r) p q.
Proof.
  intros Hstep. induction fuel as [|fuel IH]; intros p q Hq; simpl in Hq.
  - by apply elem_of_nil in Hq.
  - apply elem_of_app in Hq as [Hq|Hq].
    + apply M_Plus_one. by apply Hstep.
    + apply list_elem_of_bind in Hq as (m & Hq & Hm).
      apply list_elem_of_filter in Hm as [_ Hm].
      apply (M_Plus_more _ _ m); [by apply Hstep|by apply IH].
Qed.

Lemma ends_sound r : ∀ p q, q ∈ ends r p → Matches r p q.
Proof.
  induction r as [w|f| | |r1 IH1 r2 IH2|r IH|r IH|n r IH]; intros [i t] q Hq;
    simpl in Hq.
  - destruct (strip_prefix w t) as [t'|] eqn:E; [|by apply elem_of_nil in Hq].
    apply list_elem_of_singleton in Hq as ->.
    apply strip_prefix_Some in E as ->. constructor.
  - destruct t as [|c t]; [by apply elem_of_nil in Hq|].
    destruct (f c) eqn:E; [|by apply elem_of_nil in Hq].
    apply list_elem_of_singleton in Hq as ->. by constructor.
  - case_decide; [|by apply elem_of_nil in Hq].
    apply list_elem_of_singleton in Hq as ->. simpl in *; subst. constructor.
  - destruct t; [|by apply elem_of_nil in Hq].
    apply list_elem_of_singleton in Hq as ->. constructor.
  - apply list_elem_of_bind in Hq as (m & Hq & Hm).
    apply (M_Seq _ _ _ m); [by apply IH1|by apply IH2].
  - apply elem_of_app in Hq as [Hq|Hq].
    + apply M_Opt_take. by apply IH.
    + apply list_elem_of_singleton in Hq as ->. constructor.
  - exact (plus_loop_sound r (ends r) IH (S (length t)) (i, t) q Hq).
  - revert q Hq. induction n as [|n IHn]; intros q Hq; simpl in Hq.
    + apply list_elem_of_singleton in Hq as ->. constructor.
    + apply list_elem_of_bind in Hq as (m & Hq & Hm).
      apply (M_Rep_S _ _ _ m); [by apply IHn|by apply IH].
Qed.

Lemma ends_complete r p q : Matches r p q → q ∈ ends r p.
Proof.
  induction 1 as [w i t|f i c t Hf|t|i|r1 r2 p q u _ IH1 _ IH2
                 |r p|r p q _ IH|r p q _ IH|r p q u H1 IH1 H2 IH2
                 |r p|n r p q u _ IH1 _ IH2]; simpl.
  - replace (strip_prefix w (w ++ t)) with (Some t);
      [apply list_elem_of_singleton; reflexivity|].
    symmetry. by apply strip_prefix_Some.
  - rewrite Hf. by apply list_elem_of_singleton.
  - by apply list_elem_of_singleton.
  - by apply list_elem_of_singleton.
  - apply list_elem_of_bind. eauto.
  - apply elem_of_app. right. by apply list_elem_of_singleton.
  - apply elem_of_app. by left.
  - apply elem_of_app. by left.
  - destruct (decide (length q.2 = length p.2)) as [Hst|Hmv].
    + apply (Matches_stay _ _ _ H1) in Hst. by subst q.
    + pose proof (Matches_length _ _ _ H1) as Hle.
      apply elem_of_app. right. apply list_elem_of_bind. exists q. split.
      * eapply plus_loop_mono; [|exact IH2]. lia.
      * apply list_elem_of_filter. split; [lia|done].
  - by apply list_elem_of_singleton.
  - apply list_elem_of_bind. eauto.
Qed.

Lemma ends_spec r p q : q ∈ ends r p ↔ Matches r p q.
Proof. split; [apply ends_sound | apply ends_complete]. Qed.

Lemma MatchString_spec re s :
  MatchString re s = true ↔
  ∃ i q, i ≤ String.length s
         ∧ Matches re (i, drop i (list_ascii_of_string s)) q.
Proof.
  unfold MatchString. rewrite existsb_exists.
  assert (Hlen : String.length s = length (list_ascii_of_string s)).
  { induction s; simpl; congruence. }
  split.
  - intros (i & Hi & Hm). apply in_seq in Hi.
    destruct (ends re _) as [|q l] eqn:E; [discriminate|].
    exists i, q. split; [lia|]. apply ends_spec. rewrite E. left.
  - intros (i & q & Hi & Hm). exists i. split; [apply in_seq; lia|].
    apply ends_spec in Hm. destruct (ends re _); [by apply elem_of_nil in Hm|done].
Qed.

Lemma Matches_Seq_inv r1 r2 p u :
  Matches (Seq r1 r2) p u ↔ ∃ q, Matches r1 p q ∧ Matches r2 q u.
Proof.
  split.
  - inversion 1; subst. eauto.
  - intros (q & H1 & H2). by apply (M_Seq _ _ _ q).
Qed.

Lemma Matches_Lit_inv w i t q :
  Matches (Lit w) (i, t) q ↔ ∃ t', t = w ++ t' ∧ q = (length w + i, t').
Proof.
  split.
  - inversion 1; subst. eauto.
  - intros (t' & -> & ->). constructor.
Qed.

Lemma Matches_Class_inv f i t q :
  Matches (Class f) (i, t) q ↔ ∃ c t', t = c :: t' ∧ f c = true ∧ q = (S i, t').
Proof.
  split.
  - inversion 1; subst. eauto.
  - intros (c & t' & -> & Hf & ->). by constructor.
Qed.

Lemma Matches_Begin_inv i t q : Matches BeginText (i, t) q ↔ i = 0 ∧ q = (i, t).
Proof.
  split.
  - inversion 1; subst. done.
  - intros [-> ->]. constructor.
Qed.

Lemma Matches_End_inv i t q : Matches EndText (i, t) q ↔ t = [] ∧ q = (i, t).
Proof.
  split.
  - inversion 1; subst. done.
  - intros [-> ->]. constructor.
Qed.

Lemma Matches_Opt_inv r p q : Matches (Opt r) p q ↔ q = p ∨ Matches r p q.
Proof.
  split.
  - inversion 1; subst; eauto.
  - intros [->|H]; by constructor.
Qed.

Lemma spans_iff r (L L' : list ascii → Prop) :
  (∀ w, L w ↔ L' w) → spans r L → spans r L'.
Proof.
  intros HL Hr i t q. rewrite (Hr i t q).
  split; intros (w & Hw & E); exists w; (split; [by apply HL|done]).
Qed.

Lemma spans_Lit w : spans (Lit w) (λ x, x = w).
Proof.
  intros i t [j t']. rewrite Matches_Lit_inv. simpl. split.
  - intros (t'' & -> & [= -> ->]). by exists w.
  - intros (x & -> & -> & ->). by exists t'.
Qed.

Lemma spans_Class f : spans (Class f) (λ x, ∃ c, x = [c] ∧ f c = true).
Proof.
  intros i t [j t']. rewrite Matches_Class_inv. simpl. split.
  - intros (c & t'' & -> & Hf & [= -> ->]). exists [c]. eauto.
  - intros (x & (c & -> & Hf) & -> & ->). by exists c, t'.
Qed.

Lemma spans_Seq r1 r2 (L1 L2 : list ascii → Prop) :
  spans r1 L1 → spans r2 L2 →
  spans (Seq r1 r2) (λ x, ∃ x1 x2, x = x1 ++ x2 ∧ L1 x1 ∧ L2 x2).
Proof.
  intros H1 H2 i t u. rewrite Matches_Seq_inv. split.
  - intros ([j t'] & (x1 & Hx1 & E1 & O1)%H1 & (x2 & Hx2 & E2 & O2)%H2).
    simpl in *. exists (x1 ++ x2). split; [by exists x1, x2|].
    rewrite E1, E2, O2, O1, length_app, <-app_assoc. split; [done|lia].
  - intros (x & (x1 & x2 & -> & Hx1 & Hx2) & -> & O).
    exists (length x1 + i, x2 ++ u.2). split.
    + apply H1. exists x1. by rewrite <-app_assoc.
    + apply H2. exists x2. rewrite O, length_app. split; [done|]. split; [done|lia].
Qed.

Lemma spans_Opt r (L : list ascii → Prop) :
  spans r L → spans (Opt r) (λ x, x = [] ∨ L x).
Proof.
  intros H i t q. rewrite Matches_Opt_inv, (H i t q). split.
  - intros [->|(w & Hw & E)].
    + exists []. simpl. auto.
    + exists w. auto.
  - intros (w & [->|Hw] & E & O).
    + left. destruct q; simpl in *; congruence.
    + right. by exists w.
Qed.

Lemma spans_Plus_Class f :
  spans (Plus (Class f)) (λ x, x ≠ [] ∧ all_of f x).
Proof.
  intros i t q. split.
  - remember (Plus (Class f)) as r eqn:Er. remember (i, t) as p eqn:Ep.
    intros H. revert i t Ep.
    induction H as [| | | | | | |r p q H|r p q u H1 _ H2 IH| |]; try discriminate;
      injection Er as ->; intros i t ->.
    + apply Matches_Class_inv in H as (c & t' & -> & Hf & ->).
      exists [c]. repeat split; [done|by repeat constructor].
    + apply Matches_Class_inv in H1 as (c & t' & -> & Hf & ->).
      destruct (IH eq_refl (S i) t' eq_refl) as (w & [_ Hw] & -> & O).
      exists (c :: w). repeat split; [done|by constructor|simpl; lia].
  - intros (w & [Hne Hw] & -> & O). revert i q O.
    induction Hw as [|c w Hc Hw IH]; [done|]. intros i [j t'] O. simpl in *.
    destruct w as [|c' w].
    + apply M_Plus_one. subst j. by constructor.
    + apply (M_Plus_more _ _ (S i, (c' :: w) ++ t')); [by constructor|].
      apply (IH ltac:(done) (S i) (j, t')). simpl in *; lia.
Qed.

Lemma spans_Rep_Class n f :
  spans (Rep n (Class f)) (λ x, length x = n ∧ all_of f x).
Proof.
  induction n as [|n IH]; intros i t q.
  - split.
    + inversion 1; subst. exists []. repeat split; constructor.
    + intros (w & [Hl _] & -> & O). destruct w; [|done].
      destruct q; simpl in *; subst. constructor.
  - split.
    + inversion 1 as [| | | | | | | | | |n' r' p' [j t'] u' Hn Hc]; subst.
      apply IH in Hn as (w & [Hl Hw] & -> & O). simpl in *.
      apply Matches_Class_inv in Hc as (c & t'' & -> & Hf & ->).
      exists (w ++ [c]). rewrite length_app, <-app_assoc. simpl.
      repeat split; [lia|apply Forall_app; by repeat constructor|lia].
    + intros (w & [Hl Hw] & -> & O).
      destruct (decide (w = [])) as [->|Hne]; [done|].
      destruct (exists_last Hne) as (w' & c & ->).
      rewrite length_app in Hl, O. simpl in *.
      apply Forall_app in Hw as [Hw' Hc]. apply Forall_inv in Hc.
      apply (M_Rep_S _ _ _ (length w' + i, c :: q.2)).
      * apply IH. exists w'. simpl. split; [split; [lia|done]|].
        split; [rewrite <-app_assoc; reflexivity|lia].
      * destruct q; simpl in *. apply Matches_Class_inv. exists c, l.
        repeat split; [done|]. f_equal. lia.
Qed.

Lemma spans_to_end_End r (L : list ascii → Prop) :
  spans r L → spans_to_end (Seq r EndText) L.
Proof.
  intros H i t q. rewrite Matches_Seq_inv. split.
  - intros ([j t'] & (w & Hw & E & O)%H & [-> ->]%Matches_End_inv).
    simpl in *. rewrite app_nil_r in E. subst. done.
  - intros [Ht ->]. exists (length t + i, []). split; [|by apply Matches_End_inv].
    apply H. exists t. by rewrite app_nil_r.
Qed.

Lemma spans_to_end_Seq r1 r2 (L1 L2 : list ascii → Prop) :
  spans r1 L1 → spans_to_end r2 L2 →
  spans_to_end (Seq r1 r2) (λ x, ∃ x1 x2, x = x1 ++ x2 ∧ L1 x1 ∧ L2 x2).
Proof.
  intros H1 H2 i t q. rewrite Matches_Seq_inv. split.
  - intros ([j t'] & (x1 & Hx1 & E & O)%H1 & [Hx2 ->]%H2). simpl in *. subst.
    split; [by exists x1, t'|]. rewrite length_app. f_equal. lia.
  - intros [(x1 & x2 & -> & Hx1 & Hx2) ->]. exists (length x1 + i, x2). split.
    + apply H1. by exists x1.
    + apply H2. split; [done|]. rewrite length_app. f_equal. lia.
Qed.

Lemma spans_from_start_Begin r (L : list ascii → Prop) :
  spans r L → spans_from_start (Seq BeginText r) L.
Proof.
  intros H i t q. rewrite Matches_Seq_inv. split.
  - intros (m & [-> ->]%Matches_Begin_inv & (w & Hw & E & O)%H).
    split; [done|]. exists w. rewrite O. repeat split; [done..|lia].
  - intros [-> (w & Hw & E & O)]. exists (0, t). split; [by apply Matches_Begin_inv|].
    apply H. exists w. rewrite O. repeat split; [done..|lia].
Qed.

(** [^r] with [r] ending in [$]: the whole text is a word of [r]. *)
Lemma MatchString_whole r (L : list ascii → Prop) s :
  spans_to_end r L →
  MatchString (Seq BeginText r) s = true ↔ L (list_ascii_of_string s).
Proof.
  intros H. rewrite MatchString_spec. split.
  - intros (i & q & _ & (m & [-> ->]%Matches_Begin_inv & [Hm _]%H)%Matches_Seq_inv).
    by rewrite drop_0 in Hm.
  - intros Hs. exists 0, (length (list_ascii_of_string s) + 0, []).
    split; [lia|]. rewrite drop_0. apply Matches_Seq_inv.
    exists (0, list_ascii_of_string s). split; [by apply Matches_Begin_inv|].
    by apply H.
Qed.

(** A pattern that starts with [^] followed by one that ends in [$]: the
    whole text is a word of the first and then one of the second. *)
Lemma MatchString_whole_Seq r1 r2 (L1 L2 : list ascii → Prop) s :
  spans_from_start r1 L1 → spans_to_end r2 L2 →
  MatchString (Seq r1 r2) s = true ↔
  ∃ x1 x2, list_ascii_of_string s = x1 ++ x2 ∧ L1 x1 ∧ L2 x2.
Proof.
  intros H1 H2. rewrite MatchString_spec. split.
  - intros (i & q & _ & ([j t'] & [-> (x1 & Hx1 & E & O)]%H1 & [Hx2 _]%H2)%Matches_Seq_inv).
    rewrite drop_0 in E. simpl in *. by exists x1, t'.
  - intros (x1 & x2 & E & Hx1 & Hx2).
    exists 0, (length x2 + length x1, []). split; [lia|]. rewrite drop_0, E.
    apply Matches_Seq_inv. exists (length x1, x2). split.
    + apply H1. split; [done|]. by exists x1.
    + by apply H2.
Qed.

End RegexpFacts.

(** ** Strings and their bytes *)

Local Abbreviation chars := list_ascii_of_string.
Local Abbreviation str := string_of_list_ascii.

Lemma chars_app (a b : string) : chars (a +:+ b) = chars a ++ chars b.
Proof. induction a as [|c a IH]; simpl; [done|by rewrite IH]. Qed.

Lemma str_app (x y : list ascii) : str (x ++ y) = str x +:+ str y.
Proof. induction x as [|c x IH]; simpl; [done|by rewrite IH]. Qed.

Lemma chars_inj (a b : string) : chars a = chars b → a = b.
Proof.
  intros E. rewrite <-(string_of_list_ascii_of_string a), E.
  apply string_of_list_ascii_of_string.
Qed.

Lemma length_chars (a : string) : length (chars a) = String.length a.
Proof. induction a; simpl; congruence. Qed.

Lemma chars_nil (a : string) : chars a = [] ↔ a = "".
Proof. destruct a; simpl; split; congruence. Qed.

Lemma app_string_inj_r (a b c : string) : a +:+ c = b +:+ c → a = b.
Proof.
  intros E. apply chars_inj. apply (f_equal chars) in E.
  rewrite !chars_app in E. by apply app_inv_tail in E.
Qed.

Lemma all_chars_all_of (f : ascii → bool) (set s : string) :
  (∀ c, f c = char_in set c) → all_chars set s ↔ all_of f (chars s).
Proof.
  intros Hf. unfold all_chars, all_of. apply Forall_iff. intros c. by rewrite Hf.
Qed.

Lemma all_chars_str (f : ascii → bool) (set : string) (x : list ascii) :
  (∀ c, f c = char_in set c) → all_chars set (str x) ↔ all_of f x.
Proof.
  intros Hf. by rewrite (all_chars_all_of f), list_ascii_of_string_of_list_ascii.
Qed.

Lemma str_nil (x : list ascii) : str x = "" ↔ x = [].
Proof. destruct x; simpl; split; congruence. Qed.

Lemma length_str (x : list ascii) : String.length (str x) = length x.
Proof. by rewrite <-length_chars, list_ascii_of_string_of_list_ascii. Qed.

(** ** The character classes *)

Lemma key_id_char_set c : key_id_char c = char_in "abcdef0123456789-" c.
Proof. by destruct c as [[] [] [] [] [] [] [] []]. Qed.

Lemma alias_char_set c :
  alias_char c = char_in (lower_letters +:+ upper_letters +:+ digits +:+ ":/_-") c.
Proof. by destruct c as [[] [] [] [] [] [] [] []]. Qed.

Lemma lower_char_set c : lower_char c = char_in lower_letters c.
Proof. by destruct c as [[] [] [] [] [] [] [] []]. Qed.

Lemma digit_char_set c : digit_char c = char_in digits c.
Proof. by destruct c as [[] [] [] [] [] [] [] []]. Qed.

(** ** The four patterns *)

Import RegexpFacts.

Lemma str_eq (x : list ascii) (s : string) : str x = s → x = chars s.
Proof. intros <-. by rewrite list_ascii_of_string_of_list_ascii. Qed.

Lemma spans_to_end_iff r (L L' : list ascii → Prop) :
  (∀ w, L w ↔ L' w) → spans_to_end r L → spans_to_end r L'.
Proof. intros HL Hr i t q. by rewrite (Hr i t q), HL. Qed.

Lemma spans_from_start_iff r (L L' : list ascii → Prop) :
  (∀ w, L w ↔ L' w) → spans_from_start r L → spans_from_start r L'.
Proof.
  intros HL Hr i t q. rewrite (Hr i t q).
  split; intros [-> (w & Hw & E)]; (split; [done|]); exists w;
    (split; [by apply HL|done]).
Qed.

Ltac to_strings :=
  rewrite ?str_app, ?chars_app, ?list_ascii_of_string_of_list_ascii,
    ?string_of_list_ascii_of_string, ?length_str, ?length_chars.

Lemma kmsKeyIdPattern_spans :
  spans_to_end kmsKeyIdPattern (λ x, is_key_id (str x)).
Proof.
  eapply spans_to_end_iff;
    [|exact (spans_to_end_End _ _ (spans_Plus_Class key_id_char))].
  intros x. unfold is_key_id.
  by rewrite (all_chars_str _ _ _ key_id_char_set), str_nil.
Qed.

Lemma aliasPattern_spans :
  spans_to_end aliasPattern (λ x, is_alias (str x)).
Proof.
  eapply spans_to_end_iff;
    [|exact (spans_to_end_Seq _ _ _ _ (spans_Lit _)
               (spans_to_end_End _ _ (spans_Plus_Class alias_char)))].
  intros x. unfold is_alias. split.
  - intros (x1 & x2 & -> & -> & Hne & Hx2). exists (str x2). to_strings.
    by rewrite (all_chars_str _ _ _ alias_char_set), str_nil.
  - intros (body & E%str_eq & Hne & Hb). rewrite chars_app in E.
    exists (chars "alias/"), (chars body). split; [done|]. split; [done|].
    by rewrite <-(all_chars_all_of _ _ _ alias_char_set), chars_nil.
Qed.

Lemma region_spans :
  spans (Seq (Rep 2 (Class lower_char))
          (Seq (lit "-")
            (Seq (Opt (lit "gov-"))
              (Seq (Plus (Class lower_char))
                (Seq (lit "-") (Rep 1 (Class digit_char)))))))
        (λ x, is_region (str x)).
Proof.
  eapply spans_iff;
    [|exact (spans_Seq _ _ _ _ (spans_Rep_Class 2 lower_char)
              (spans_Seq _ _ _ _ (spans_Lit _)
                (spans_Seq _ _ _ _ (spans_Opt _ _ (spans_Lit _))
                  (spans_Seq _ _ _ _ (spans_Plus_Class lower_char)
                    (spans_Seq _ _ _ _ (spans_Lit _)
                      (spans_Rep_Class 1 digit_char))))))].
  intros x. unfold is_region. split.
  - intros (x1 & ? & -> & [Hl1 Hx1] & ? & ? & -> & -> & x5 & ? & -> & Hgov
            & x7 & ? & -> & [Hne Hx7] & ? & x10 & -> & -> & Hl10 & Hx10).
    exists (str x1), (str x7), (str x10),
      (if decide (x5 = []) then false else true).
    to_strings.
    rewrite (all_chars_str _ _ _ lower_char_set), (all_chars_str _ _ _ lower_char_set),
      (all_chars_str _ _ _ digit_char_set), str_nil.
    repeat split; try done.
    by destruct Hgov as [->| ->].
  - intros (cc & word & d & gov & E%str_eq & Hl1 & Hcc & Hne & Hword & Hld & Hd).
    rewrite !chars_app in E.
    apply (all_chars_all_of _ _ _ lower_char_set) in Hcc, Hword.
    apply (all_chars_all_of _ _ _ digit_char_set) in Hd.
    rewrite <-length_chars in Hl1, Hld. rewrite <-chars_nil in Hne.
    exists (chars cc), (chars "-" ++ chars (if gov then "gov-" else "")
                        ++ chars word ++ chars "-" ++ chars d).
    split; [done|]. split; [done|].
    exists (chars "-"), (chars (if gov then "gov-" else "")
                        ++ chars word ++ chars "-" ++ chars d).
    split; [done|]. split; [done|].
    exists (chars (if gov then "gov-" else "")), (chars word ++ chars "-" ++ chars d).
    split; [done|]. split; [destruct gov; auto|].
    exists (chars word), (chars "-" ++ chars d).
    split; [done|]. split; [done|].
    by exists (chars "-"), (chars d).
Qed.

Lemma kmsArnStartPattern_spans :
  spans_from_start kmsArnStartPattern (λ x, is_arn_start (str x)).
Proof.
  eapply spans_from_start_iff;
    [|exact (spans_from_start_Begin _ _
              (spans_Seq _ _ _ _ (spans_Lit _)
                (spans_Seq _ _ _ _ (spans_Opt _ _ region_spans)
                  (spans_Seq _ _ _ _ (spans_Lit _)
                    (spans_Seq _ _ _ _ (spans_Rep_Class 12 digit_char)
                      (spans_Lit _))))))].
  intros x. unfold is_arn_start. split.
  - intros (? & ? & -> & -> & x3 & ? & -> & Hreg & ? & ? & -> & ->
            & x7 & ? & -> & [Hl Hx7] & ->).
    exists (str x3), (str x7). to_strings.
    rewrite (all_chars_str _ _ _ digit_char_set), str_nil. done.
  - intros (region & account & E%str_eq & Hreg & Hl & Hacc).
    rewrite !chars_app in E.
    apply (all_chars_all_of _ _ _ digit_char_set) in Hacc.
    rewrite <-length_chars in Hl. rewrite <-chars_nil in Hreg.
    exists (chars "arn:aws:kms:"),
      (chars region ++ chars ":" ++ chars account ++ chars ":").
    split; [done|]. split; [done|].
    exists (chars region), (chars ":" ++ chars account ++ chars ":").
    split; [done|]. split.
    { destruct Hreg as [?|Hreg]; [by left|right].
      by rewrite string_of_list_ascii_of_string. }
    exists (chars ":"), (chars account ++ chars ":").
    split; [done|]. split; [done|].
    by exists (chars account), (chars ":").
Qed.

Lemma key_id_shape s :
  MatchString (Seq BeginText kmsKeyIdPattern) s = true ↔ is_key_id s.
Proof.
  rewrite (MatchString_whole _ _ _ kmsKeyIdPattern_spans).
  by rewrite string_of_list_ascii_of_string.
Qed.

Lemma alias_shape s :
  MatchString (Seq BeginText aliasPattern) s = true ↔ is_alias s.
Proof.
  rewrite (MatchString_whole _ _ _ aliasPattern_spans).
  by rewrite string_of_list_ascii_of_string.
Qed.

Lemma key_arn_shape s :
  MatchString (Seq kmsArnStartPattern (Seq (lit "key/") kmsKeyIdPattern)) s = true
  ↔ is_key_arn s.
Proof.
  unfold lit.
  rewrite (MatchString_whole_Seq _ _ _ _ _ kmsArnStartPattern_spans
             (spans_to_end_Seq _ _ _ _ (spans_Lit _) kmsKeyIdPattern_spans)).
  unfold is_key_arn. split.
  - intros (x1 & ? & E & Hx1 & ? & x3 & -> & -> & Hx3).
    exists (str x1), (str x3). split; [|done].
    apply chars_inj. rewrite E. by to_strings.
  - intros (start & id & -> & Hstart & Hid). rewrite !chars_app.
    exists (chars start), (chars "key/" ++ chars id).
    rewrite !string_of_list_ascii_of_string. split; [done|]. split; [done|].
    exists (chars "key/"), (chars id).
    by rewrite !string_of_list_ascii_of_string.
Qed.

Lemma alias_arn_shape s :
  MatchString (Seq kmsArnStartPattern aliasPattern) s = true ↔ is_alias_arn s.
Proof.
  rewrite (MatchString_whole_Seq _ _ _ _ _ kmsArnStartPattern_spans aliasPattern_spans).
  unfold is_alias_arn. split.
  - intros (x1 & x2 & E & Hx1 & Hx2).
    exists (str x1), (str x2). split; [|done].
    apply chars_inj. rewrite E. by to_strings.
  - intros (start & al & -> & Hstart & Hal). rewrite !chars_app.
    exists (chars start), (chars al).
    by rewrite !string_of_list_ascii_of_string.
Qed.

(** ** Lists in first-seen order *)

Lemma filter_id {A} (P : A → Prop) `{!∀ x, Decision (P x)} (l : list A) :
  Forall P l → filter P l = l.
Proof.
  induction 1 as [|x l Hx _ IH]; [done|]. by rewrite filter_cons_True, IH.
Qed.

Lemma see_nil x : see [] x = [x].
Proof. unfold see. by rewrite decide_False by apply not_elem_of_nil. Qed.

Lemma foldl_see l acc :
  foldl see acc l = acc ++ filter (λ x, x ∉ acc) (first_seen l).
Proof.
  unfold first_seen. revert acc. induction l as [|x l IH]; intros acc; simpl.
  - by rewrite app_nil_r.
  - rewrite (IH (see acc x)), (IH (see [] x)), see_nil. unfold see. simpl.
    rewrite filter_cons, list_filter_filter. destruct (decide (x ∈ acc)) as [Hin|Hin].
    + rewrite decide_False by tauto. f_equal. apply list_filter_iff.
      intros y. rewrite list_elem_of_singleton. naive_solver.
    + rewrite decide_True by done. rewrite <-app_assoc. simpl. do 2 f_equal.
      apply list_filter_iff. intros y.
      rewrite elem_of_app, list_elem_of_singleton. naive_solver.
Qed.

Lemma first_seen_cons x l :
  first_seen (x :: l) = x :: filter (λ y, y ≠ x) (first_seen l).
Proof.
  unfold first_seen at 1. simpl. rewrite foldl_see, see_nil. simpl. f_equal.
  apply list_filter_iff. intros y. by rewrite list_elem_of_singleton.
Qed.

Lemma elem_of_first_seen x l : x ∈ first_seen l ↔ x ∈ l.
Proof.
  induction l as [|y l IH]; [done|].
  rewrite first_seen_cons, !elem_of_cons, list_elem_of_filter, IH.
  destruct (decide (x = y)); naive_solver.
Qed.

Lemma NoDup_first_seen l : NoDup (first_seen l).
Proof.
  induction l as [|y l IH]; [constructor|].
  rewrite first_seen_cons. constructor; [|by apply NoDup_filter].
  rewrite list_elem_of_filter. naive_solver.
Qed.

Lemma first_seen_NoDup l : NoDup l → first_seen l = l.
Proof.
  induction 1 as [|x l Hx _ IH]; [done|].
  rewrite first_seen_cons, IH. f_equal. apply filter_id, Forall_forall.
  intros y Hy ->. done.
Qed.

Lemma first_index_Some x l : x ∈ l → ∃ n, first_index x l = Some n.
Proof.
  induction 1 as [y l|y z l _ [n IH]]; simpl.
  - rewrite decide_True by done. eauto.
  - destruct (decide (z = y)); [eauto|]. rewrite IH. simpl. eauto.
Qed.

(** [a] before [b] in [first_seen l]: [a] is first seen before [b] is. *)
Lemma first_seen_order l k1 a k2 b k3 :
  first_seen l = k1 ++ a :: k2 ++ b :: k3 →
  ∃ ia ib, first_index a l = Some ia ∧ first_index b l = Some ib ∧ ia < ib.
Proof.
  revert k1 a k2 b k3. induction l as [|x l IH]; intros k1 a k2 b k3 E.
  - by destruct k1.
  - rewrite first_seen_cons in E. destruct k1 as [|x' k1]; injection E as <- E.
    + assert (Hb : b ∈ filter (λ y, y ≠ x) (first_seen l)).
      { rewrite E. apply elem_of_app. right. left. }
      apply list_elem_of_filter in Hb as [Hbx Hb].
      apply (proj1 (elem_of_first_seen _ _)) in Hb.
      apply first_index_Some in Hb as [n Hn].
      exists 0, (S n). simpl. rewrite decide_True, decide_False, Hn by done.
      simpl. repeat split. lia.
    + assert (Ha : a ∈ filter (λ y, y ≠ x) (first_seen l)).
      { rewrite E. apply elem_of_app. right. left. }
      assert (Hb : b ∈ filter (λ y, y ≠ x) (first_seen l)).
      { rewrite E, !elem_of_app, !elem_of_cons, elem_of_app, elem_of_cons. auto. }
      apply list_elem_of_filter in Ha as [Hax _], Hb as [Hbx _].
      pose proof (sublist_filter (λ y, y ≠ x) (first_seen l)) as Hsub.
      rewrite E in Hsub.
      apply sublist_app_l in Hsub as (m1 & m2 & Em & _ & Hsub).
      apply sublist_cons_l in Hsub as (m3 & m4 & -> & Hsub).
      apply sublist_app_l in Hsub as (m5 & m6 & -> & _ & Hsub).
      apply sublist_cons_l in Hsub as (m7 & m8 & -> & _).
      destruct (IH (m1 ++ m3) a (m5 ++ m7) b m8) as (ia & ib & Hia & Hib & Hlt).
      { rewrite Em, <-!app_assoc. simpl. by rewrite <-?app_assoc. }
      exists (S ia), (S ib). simpl. rewrite !decide_False, Hia, Hib by done.
      simpl. repeat split. lia.
Qed.

(** Two positions of a list, as a splitting of it. *)
Lemma lookup_lt_split {A} (l : list A) i j x y :
  l !! i = Some x → l !! j = Some y → i < j →
  ∃ k1 k2 k3, l = k1 ++ x :: k2 ++ y :: k3.
Proof.
  intros Hi Hj Hlt.
  rewrite <-(take_drop_middle l i x Hi).
  assert (Hj' : drop (S i) l !! (j - S i) = Some y).
  { rewrite lookup_drop. rewrite <-Hj. f_equal. lia. }
  rewrite <-(take_drop_middle _ _ _ Hj'). eauto.
Qed.

(** ** prepareRegions *)

Section PrepareRegions.

Context {TagMap : Type}.
Implicit Types (c : OMIConfig TagMap) (accessConfig : option AccessConfig).

Lemma prepareRegions_round_inv kms accessConfig st seen x :
  region_loop_inv kms accessConfig st seen →
  region_loop_inv kms accessConfig
    (prepareRegions_round kms accessConfig st x) (see seen x).
Proof.
  intros (Hset & Hreg & Herr & Hlog). unfold prepareRegions_round, see.
  destruct (decide (x ∈ regionSet st)) as [Hin|Hin].
  { rewrite (decide_True (P := x ∈ seen)) by by apply Hset. done. }
  rewrite (decide_False (P := x ∈ seen)) by (intros Hx; by apply Hset in Hx).
  change (match accessConfig with
          | Some a => bool_decide (x = RawRegion a)
          | None => false
          end) with (is_origin accessConfig x).
  assert (Hset' : ∀ y, y ∈ {[x]} ∪ regionSet st ↔ y ∈ seen ++ [x]).
  { intros y. specialize (Hset y).
    rewrite elem_of_union, elem_of_singleton, elem_of_app, list_elem_of_singleton.
    tauto. }
  assert (Herr' :
    (if decide (0 < size kms)
     then match kms !! x with
          | Some _ => loop_errs st
          | None => loop_errs st ++ [err_not_in_region_kms_key_ids x]
          end
     else loop_errs st) =
    (if decide (0 < size kms)
     then err_not_in_region_kms_key_ids <$> filter (λ r, kms !! r = None) (seen ++ [x])
     else [])).
  { rewrite Herr. destruct (decide (0 < size kms)); [|done].
    rewrite filter_app, fmap_app, filter_cons, filter_nil.
    destruct (kms !! x) eqn:E.
    - rewrite decide_False by done. by rewrite app_nil_r.
    - rewrite decide_True by done. reflexivity. }
  destruct (is_origin accessConfig x) eqn:Eo; unfold region_loop_inv; simpl;
    rewrite Herr', Hlog, Hreg, !filter_app, !filter_cons, !filter_nil, Eo.
  - rewrite (decide_False (P := true = false)), (decide_True (P := true = true)) by done.
    by rewrite !fmap_app, app_nil_r.
  - rewrite (decide_True (P := false = false)), (decide_False (P := false = true)) by done.
    by rewrite app_nil_r.
Qed.

Lemma prepareRegions_loop_inv kms accessConfig l st seen :
  region_loop_inv kms accessConfig st seen →
  region_loop_inv kms accessConfig
    (foldl (prepareRegions_round kms accessConfig) st l) (foldl see seen l).
Proof.
  revert st seen. induction l as [|x l IH]; intros st seen H; [done|].
  simpl. by apply IH, prepareRegions_round_inv.
Qed.

Lemma prepareRegions_loop kms accessConfig l :
  region_loop_inv kms accessConfig
    (foldl (prepareRegions_round kms accessConfig)
       {| regionSet := ∅; regions := []; loop_errs := []; loop_log := [] |} l)
    (first_seen l).
Proof.
  apply prepareRegions_loop_inv. unfold region_loop_inv. simpl.
  repeat split; try done.
  - by intros ?%elem_of_nil.
  - by destruct (decide (0 < size kms)).
Qed.

Lemma prepareRegions_config c accessConfig :
  out_config (prepareRegions c accessConfig) =
  set_OMIRegions c
    (filter (λ r, is_origin accessConfig r = false) (first_seen (OMIRegions c))).
Proof.
  unfold prepareRegions. case_decide as Hlen; simpl.
  - f_equal. apply prepareRegions_loop.
  - destruct c as [? ? ? ? ? ? rs]; simpl in *. destruct rs; [done|simpl in *; lia].
Qed.

Lemma prepareRegions_errs c accessConfig :
  out_errs (prepareRegions c accessConfig) =
  if decide (0 < size (OMIRegionKMSKeyIDs c))
  then err_not_in_region_kms_key_ids <$>
         filter (λ r, OMIRegionKMSKeyIDs c !! r = None) (first_seen (OMIRegions c))
  else [].
Proof.
  unfold prepareRegions. case_decide as Hlen; simpl.
  - apply prepareRegions_loop.
  - destruct (OMIRegions c); [by case_decide|simpl in *; lia].
Qed.

Lemma prepareRegions_log c accessConfig :
  out_log (prepareRegions c accessConfig) =
  log_drop_region <$>
    filter (λ r, is_origin accessConfig r = true) (first_seen (OMIRegions c)).
Proof.
  unfold prepareRegions. case_decide as Hlen; simpl.
  - apply prepareRegions_loop.
  - destruct (OMIRegions c); [done|simpl in *; lia].
Qed.

End PrepareRegions.

(** ** The checks of Prepare, one by one *)

Lemma foldl_cond {A B} (P : A → Prop) `{!∀ x, Decision (P x)} (f : A → B)
    (step : list B → A → list B) (l : list A) (acc : list B) :
  (∀ acc x, step acc x = if decide (P x) then acc ++ [f x] else acc) →
  foldl step acc l = acc ++ (f <$> filter P l).
Proof.
  intros Hstep. revert acc. induction l as [|x l IH]; intros acc; simpl.
  - by rewrite app_nil_r.
  - rewrite IH, Hstep, filter_cons. destruct (decide (P x)); [|done].
    by rewrite <-app_assoc.
Qed.

Lemma fmap_const_replicate {A B} (b : B) (l : list A) :
  (λ _, b) <$> l = replicate (length l) b.
Proof. induction l as [|x l IH]; simpl; [done|]. by f_equal. Qed.

Lemma stringInSlice_spec s x : stringInSlice s x = true ↔ x ∈ s.
Proof.
  induction s as [|y s IH]; simpl.
  - split; [done|by intros ?%elem_of_nil].
  - rewrite elem_of_cons. case_decide; naive_solver.
Qed.

Lemma range_at_small (ρ : RangeOrder) n (m : gmap string string) :
  ¬ 0 < size m → range_at ρ n m = [].
Proof.
  intros Hsz. apply Permutation_nil_r. rewrite (range_at_perm ρ n m).
  assert (m = ∅) as -> by (apply map_size_empty_iff; lia).
  by rewrite map_to_list_empty.
Qed.

(** The loops over the map, the guard [len(m) > 0] included. *)
Lemma range_loop {B} (ρ : RangeOrder) n (m : gmap string string)
    (P : string * string → Prop) `{!∀ x, Decision (P x)} (f : string * string → B)
    (step : list B → string * string → list B) (acc : list B) :
  (∀ acc x, step acc x = if decide (P x) then acc ++ [f x] else acc) →
  (if decide (0 < size m) then foldl step acc (range_at ρ n m) else acc)
  = acc ++ (f <$> filter P (range_at ρ n m)).
Proof.
  intros Hstep. case_decide as Hsz.
  - by apply foldl_cond.
  - rewrite range_at_small by done. by rewrite app_nil_r.
Qed.

Lemma length_empty_valued (ρ : RangeOrder) n (m : gmap string string) :
  length (filter (λ kv, String.length kv.2 = 0) (range_at ρ n m))
  = length (empty_valued m).
Proof.
  unfold empty_valued. rewrite (range_at_perm ρ n m). f_equal.
  apply list_filter_iff. intros [k v]. simpl. destruct v; simpl; naive_solver.
Qed.

Section PrepareChecks.

Context {TagMap : Type}.
Variable templateCleanOMIName : string → string.
Implicit Types (c : OMIConfig TagMap) (accessConfig : option AccessConfig).
Implicit Types (ρ : RangeOrder).

Lemma kmsKeys_eq ρ c :
  kmsKeys ρ c =
  (if decide (OMIKmsKeyId c = "") then [] else [OMIKmsKeyId c])
  ++ replicate (length (empty_valued (OMIRegionKMSKeyIDs c))) (OMIKmsKeyId c).
Proof.
  unfold kmsKeys. cbv zeta.
  rewrite (range_loop ρ 1 _ (λ kv, String.length kv.2 = 0) (λ _, OMIKmsKeyId c))
    by done.
  rewrite fmap_const_replicate, length_empty_valued. f_equal.
  destruct (OMIKmsKeyId c) as [|a k]; [done|].
  rewrite (decide_True (P := 0 < _)) by (simpl; lia).
  by rewrite (decide_False (P := _ = "")).
Qed.

Lemma kmsKeys_set_OMIRegions ρ c rs : kmsKeys ρ (set_OMIRegions c rs) = kmsKeys ρ c.
Proof. done. Qed.

Lemma if_dec_app {A} {P : Prop} (d : {P} + {¬ P}) (acc l : list A) :
  (if d then acc ++ l else acc) = acc ++ (if d then l else []).
Proof. destruct d; [done|by rewrite app_nil_r]. Qed.

Lemma if_bool_app {A} (b : bool) (acc l : list A) :
  (if b then acc ++ l else acc) = acc ++ (if b then l else []).
Proof. destruct b; [done|by rewrite app_nil_r]. Qed.

Lemma share_errs_eq c :
  (if bool_decide (0 < length (OMIUsers c)) && OMIEncryptBootVolume c
   then [err_share_encrypted] else []) = share_errs c.
Proof.
  unfold share_errs. case_decide as H.
  - destruct H as [Hu ->]. by destruct (OMIUsers c).
  - destruct (OMIUsers c), (OMIEncryptBootVolume c); simpl; try done.
    exfalso. by apply H.
Qed.

Lemma snapshot_errs_eq c :
  (if decide (0 < length (SnapshotUsers c))
   then (if bool_decide (String.length (OMIKmsKeyId c) = 0) && OMIEncryptBootVolume c
         then [err_share_snapshot] else [])
        ++ replicate (length (empty_valued (OMIRegionKMSKeyIDs c))) err_share_snapshot
   else []) = snapshot_errs c.
Proof.
  unfold snapshot_errs. destruct (SnapshotUsers c) as [|u us]; [done|].
  rewrite (decide_True (P := 0 < _)) by (simpl; lia).
  rewrite (decide_False (P := _ = [])) by done. f_equal.
  case_decide as H.
  - by destruct H as [-> ->].
  - destruct (OMIKmsKeyId c), (OMIEncryptBootVolume c); simpl; try done.
    exfalso. by apply H.
Qed.

Lemma name_length_errs_eq c :
  (if bool_decide (String.length (OMIName c) < 3)
      || bool_decide (128 < String.length (OMIName c))
   then [err_name_length] else []) = name_length_errs c.
Proof.
  unfold name_length_errs.
  repeat case_bool_decide; case_decide; simpl; (done || lia).
Qed.

Lemma name_chars_errs_eq c :
  (if decide (OMIName c ≠ templateCleanOMIName (OMIName c))
   then [err_name_chars] else []) = name_chars_errs templateCleanOMIName c.
Proof. unfold name_chars_errs. repeat case_decide; (done || tauto). Qed.

(** The errors of [Prepare], check by check. *)
Lemma Prepare_errs ρ c accessConfig :
  out_errs (Prepare templateCleanOMIName ρ c accessConfig) =
  name_missing_errs c ++ kms_region_errs ρ c
  ++ out_errs (prepareRegions c accessConfig)
  ++ share_errs c ++ kms_key_errs ρ c ++ snapshot_errs c
  ++ name_length_errs c ++ name_chars_errs templateCleanOMIName c.
Proof.
  unfold Prepare. cbv zeta. rewrite prepareRegions_config.
  cbn [out_errs set_OMIRegions OMIName OMIUsers OMIEncryptBootVolume OMIKmsKeyId
       OMIRegionKMSKeyIDs SnapshotUsers OMIRegions].
  rewrite kmsKeys_set_OMIRegions.
  rewrite (range_loop ρ 0 _ (λ kv, kv.1 ∉ OMIRegions c)
             (λ kv, err_not_in_omi_regions kv.1)).
  2:{ intros acc [k v]. simpl. destruct (stringInSlice (OMIRegions c) k) eqn:E; simpl.
      - apply stringInSlice_spec in E. by rewrite decide_False by tauto.
      - rewrite decide_True; [done|]. rewrite <-stringInSlice_spec. congruence. }
  rewrite (foldl_cond (λ k, validateKmsKey k = false) err_invalid_kms_key).
  2:{ intros acc k. by destruct (validateKmsKey k). }
  rewrite (range_loop ρ 2 _ (λ kv, String.length kv.2 = 0) (λ _, err_share_snapshot))
    by done.
  rewrite fmap_const_replicate, length_empty_valued.
  repeat (rewrite if_dec_app || rewrite if_bool_app || rewrite <-app_assoc).
  rewrite share_errs_eq, snapshot_errs_eq, name_length_errs_eq, name_chars_errs_eq.
  reflexivity.
Qed.

End PrepareChecks.

(** ** Telling the messages apart, and counting them *)

Lemma length_append (a b : string) :
  String.length (a +:+ b) = String.length a + String.length b.
Proof. by rewrite <-!length_chars, chars_app, length_app. Qed.

Lemma tail2_suffix (a b : string) :
  2 ≤ String.length b → tail2 (a +:+ b) = tail2 b.
Proof.
  intros Hb. unfold tail2. rewrite chars_app, reverse_app.
  apply take_app_le. by rewrite length_reverse, length_chars.
Qed.

Lemma tail2_not_in_omi_regions r :
  tail2 (err_not_in_omi_regions r) = tail2 "ns".
Proof.
  unfold err_not_in_omi_regions.
  rewrite tail2_suffix by (rewrite length_append; simpl; lia).
  by rewrite tail2_suffix by (simpl; lia).
Qed.

Lemma tail2_not_in_region_kms_key_ids r :
  tail2 (err_not_in_region_kms_key_ids r) = tail2 "ds".
Proof.
  unfold err_not_in_region_kms_key_ids.
  rewrite tail2_suffix by (rewrite length_append; simpl; lia).
  by rewrite tail2_suffix by (simpl; lia).
Qed.

Lemma tail2_invalid_kms_key k : tail2 (err_invalid_kms_key k) = tail2 "d.".
Proof. unfold err_invalid_kms_key. by rewrite tail2_suffix by (simpl; lia). Qed.

Lemma err_not_in_region_kms_key_ids_inj r r' :
  err_not_in_region_kms_key_ids r = err_not_in_region_kms_key_ids r' → r = r'.
Proof.
  unfold err_not_in_region_kms_key_ids. intros E.
  apply String.app_inj in E. by apply app_string_inj_r in E.
Qed.

Lemma err_invalid_kms_key_inj k k' :
  err_invalid_kms_key k = err_invalid_kms_key k' → k = k'.
Proof. apply app_string_inj_r. Qed.

Lemma occurrences_app e l1 l2 :
  occurrences e (l1 ++ l2) = occurrences e l1 + occurrences e l2.
Proof. unfold occurrences. by rewrite filter_app, length_app. Qed.

Lemma occurrences_other e l t :
  Forall (λ x, tail2 x = t) l → tail2 e ≠ t → occurrences e l = 0.
Proof.
  intros Hl He. unfold occurrences.
  induction Hl as [|x l Hx _ IH]; [done|].
  rewrite filter_cons_False; [done|]. intros ->. done.
Qed.

Lemma occurrences_replicate e n : occurrences e (replicate n e) = n.
Proof.
  unfold occurrences. induction n as [|n IH]; simpl; [done|].
  rewrite filter_cons_True by done. cbn [length]. by f_equal.
Qed.

Lemma occurrences_fmap (f : string → error) x l :
  (∀ y y', f y = f y' → y = y') →
  occurrences (f x) (f <$> l) = occurrences x l.
Proof.
  intros Hf. unfold occurrences. induction l as [|y l IH]; [done|].
  rewrite fmap_cons, !filter_cons. destruct (decide (y = x)) as [->|Hne].
  - rewrite !decide_True by done. cbn [length]. by f_equal.
  - rewrite (decide_False (P := f y = f x)), (decide_False (P := y = x));
      [exact IH|done|]. intros E. by apply Hf in E.
Qed.

Lemma occurrences_not_in x (l : list string) : x ∉ l → occurrences x l = 0.
Proof.
  unfold occurrences. induction l as [|y l IH]; [done|].
  rewrite not_elem_of_cons. intros [Hne Hl].
  rewrite filter_cons_False by done. by apply IH.
Qed.

Lemma occurrences_NoDup x (l : list string) :
  NoDup l → x ∈ l → occurrences x l = 1.
Proof.
  induction 1 as [|y l Hy Hl IH]; [by intros ?%elem_of_nil|].
  change (y :: l) with ([y] ++ l). rewrite occurrences_app.
  intros [->|Hx]%elem_of_cons.
  - rewrite (occurrences_not_in _ l) by done. unfold occurrences.
    by rewrite filter_cons_True.
  - rewrite IH by done. unfold occurrences.
    rewrite filter_cons_False; [done|]. by intros ->.
Qed.

Lemma occurrences_filter (P : string → Prop) `{!∀ x, Decision (P x)} x l :
  occurrences x (filter P l) = if decide (P x) then occurrences x l else 0.
Proof.
  unfold occurrences. rewrite list_filter_filter. case_decide as HP.
  - f_equal. apply list_filter_iff. naive_solver.
  - induction l as [|y l IH]; [done|].
    rewrite filter_cons_False; [done|]. by intros [-> ?].
Qed.

Lemma occurrences_singleton e : occurrences e [e] = 1.
Proof. unfold occurrences. by rewrite filter_cons_True. Qed.

Lemma occurrences_nil e : occurrences e [] = 0.
Proof. done. Qed.

Lemma occurrences_pos e l : e ∈ l ↔ 0 < occurrences e l.
Proof.
  unfold occurrences. induction l as [|x l IH]; simpl.
  - split; [by intros ?%elem_of_nil|lia].
  - rewrite elem_of_cons, filter_cons. case_decide; simpl; [naive_solver lia|].
    rewrite IH. naive_solver.
Qed.

Section Tails.

Context {TagMap : Type}.
Variable templateCleanOMIName : string → string.
Implicit Types (c : OMIConfig TagMap) (accessConfig : option AccessConfig).
Implicit Types (ρ : RangeOrder).

Lemma name_missing_tail c :
  Forall (λ x, tail2 x = tail2 "ed") (name_missing_errs c).
Proof. unfold name_missing_errs. case_decide; by repeat constructor. Qed.

Lemma kms_region_tail ρ c :
  Forall (λ x, tail2 x = tail2 "ns") (kms_region_errs ρ c).
Proof.
  apply Forall_fmap, Forall_forall. intros kv _. apply tail2_not_in_omi_regions.
Qed.

Lemma prepareRegions_tail c accessConfig :
  Forall (λ x, tail2 x = tail2 "ds") (out_errs (prepareRegions c accessConfig)).
Proof.
  rewrite prepareRegions_errs. case_decide; [|constructor].
  apply Forall_fmap, Forall_forall. intros r _.
  apply tail2_not_in_region_kms_key_ids.
Qed.

Lemma share_tail c : Forall (λ x, tail2 x = tail2 "me") (share_errs c).
Proof. unfold share_errs. case_decide; by repeat constructor. Qed.

Lemma kms_key_tail ρ c : Forall (λ x, tail2 x = tail2 "d.") (kms_key_errs ρ c).
Proof.
  apply Forall_fmap, Forall_forall. intros k _. apply tail2_invalid_kms_key.
Qed.

Lemma snapshot_tail c : Forall (λ x, tail2 x = tail2 "ey") (snapshot_errs c).
Proof.
  unfold snapshot_errs. case_decide; [constructor|]. apply Forall_app. split.
  - case_decide; by repeat constructor.
  - by apply Forall_replicate.
Qed.

Lemma name_length_tail c : Forall (λ x, tail2 x = tail2 "ng") (name_length_errs c).
Proof. unfold name_length_errs. case_decide; by repeat constructor. Qed.

Lemma name_chars_tail c :
  Forall (λ x, tail2 x = tail2 "e.") (name_chars_errs templateCleanOMIName c).
Proof. unfold name_chars_errs. case_decide; by repeat constructor. Qed.

Lemma occurrences_Prepare e ρ c accessConfig :
  occurrences e (out_errs (Prepare templateCleanOMIName ρ c accessConfig)) =
  occurrences e (name_missing_errs c) + occurrences e (kms_region_errs ρ c)
  + occurrences e (out_errs (prepareRegions c accessConfig))
  + occurrences e (share_errs c) + occurrences e (kms_key_errs ρ c)
  + occurrences e (snapshot_errs c) + occurrences e (name_length_errs c)
  + occurrences e (name_chars_errs templateCleanOMIName c).
Proof. rewrite Prepare_errs, !occurrences_app. lia. Qed.

End Tails.

(** The checks that cannot have written a message: its last two bytes are
    not theirs. *)
Ltac other_checks tail :=
  repeat match goal with
  | |- context [occurrences ?e ?l] =>
      first
        [ rewrite (occurrences_other e l _ (name_missing_tail _))
        | rewrite (occurrences_other e l _ (kms_region_tail _ _))
        | rewrite (occurrences_other e l _ (prepareRegions_tail _ _))
        | rewrite (occurrences_other e l _ (share_tail _))
        | rewrite (occurrences_other e l _ (kms_key_tail _ _))
        | rewrite (occurrences_other e l _ (snapshot_tail _))
        | rewrite (occurrences_other e l _ (name_length_tail _))
        | rewrite (occurrences_other e l _ (name_chars_tail _ _)) ];
      [|rewrite ?tail; by vm_compute]
  end.

(** * The properties *)

(** C2.  [validateKmsKey] returns true exactly for the strings of one of the
    four shapes, each matched from the start of the string to its end: a
    bare key id, an alias, an ARN that names a key, an ARN that names an
    alias.  It accepts the four sample keys and rejects the empty string,
    "not-a-key!" and "Alias/bad-case". *)
Theorem validateKmsKey_shapes :
  (∀ kmsKey,
     validateKmsKey kmsKey = true ↔
     is_key_id kmsKey ∨ is_alias kmsKey ∨ is_key_arn kmsKey ∨ is_alias_arn kmsKey)
  ∧ validateKmsKey "1234abcd-12ab-34cd-56ef-1234567890ab" = true
  ∧ validateKmsKey "alias/my-key" = true
  ∧ validateKmsKey
      "arn:aws:kms:us-east-1:123456789012:key/1234abcd-12ab-34cd-56ef-1234567890ab"
    = true
  ∧ validateKmsKey "arn:aws:kms:us-east-1:123456789012:alias/my-key" = true
  ∧ validateKmsKey "" = false
  ∧ validateKmsKey "not-a-key!" = false
  ∧ validateKmsKey "Alias/bad-case" = false.
Proof.
  split; [|by vm_compute].
  intros kmsKey. rewrite <-key_id_shape, <-alias_shape, <-key_arn_shape, <-alias_arn_shape.
  unfold validateKmsKey.
  repeat match goal with |- context [if ?b then _ else _] => destruct b end;
    naive_solver.
Qed.

Section Properties.

Context {TagMap : Type}.
Variable templateCleanOMIName : string → string.
Implicit Types (c : OMIConfig TagMap) (accessConfig : option AccessConfig).
Implicit Types (ρ : RangeOrder).

Lemma Prepare_config ρ c accessConfig :
  out_config (Prepare templateCleanOMIName ρ c accessConfig)
  = out_config (prepareRegions c accessConfig).
Proof. done. Qed.

(** C1.  After [Prepare], [OMIRegions] has no duplicates and does not hold
    the region of the access context when there is one; it holds every other
    region of the input, and two regions are in it in the order in which
    they are first met in the input. *)
Theorem Prepare_regions ρ c accessConfig :
  NoDup (OMIRegions (out_config (Prepare templateCleanOMIName ρ c accessConfig)))
  ∧ (∀ a, accessConfig = Some a →
       RawRegion a ∉ OMIRegions (out_config (Prepare templateCleanOMIName ρ c accessConfig)))
  ∧ (∀ r, r ∈ OMIRegions (out_config (Prepare templateCleanOMIName ρ c accessConfig))
          ↔ r ∈ OMIRegions c ∧ is_origin accessConfig r = false)
  ∧ (∀ i j x y,
       OMIRegions (out_config (Prepare templateCleanOMIName ρ c accessConfig)) !! i = Some x →
       OMIRegions (out_config (Prepare templateCleanOMIName ρ c accessConfig)) !! j = Some y →
       i < j →
       ∃ ix iy, first_index x (OMIRegions c) = Some ix
                ∧ first_index y (OMIRegions c) = Some iy ∧ ix < iy)
  ∧ OMIRegions (out_config (Prepare templateCleanOMIName ρ c accessConfig))
    = filter (λ r, is_origin accessConfig r = false) (first_seen (OMIRegions c)).
Proof.
  rewrite Prepare_config, prepareRegions_config. simpl.
  split; [apply NoDup_filter, NoDup_first_seen|].
  split.
  { intros a -> [Ho _]%list_elem_of_filter. simpl in Ho.
    by rewrite bool_decide_eq_false in Ho. }
  split.
  { intros r. rewrite list_elem_of_filter, elem_of_first_seen. tauto. }
  split; [|done].
  intros i j x y Hi Hj Hlt.
  destruct (lookup_lt_split _ _ _ _ _ Hi Hj Hlt) as (k1 & k2 & k3 & E).
  pose proof (sublist_filter (λ r, is_origin accessConfig r = false)
                (first_seen (OMIRegions c))) as Hsub.
  rewrite E in Hsub.
  apply sublist_app_l in Hsub as (m1 & m2 & Em & _ & Hsub).
  apply sublist_cons_l in Hsub as (m3 & m4 & -> & Hsub).
  apply sublist_app_l in Hsub as (m5 & m6 & -> & _ & Hsub).
  apply sublist_cons_l in Hsub as (m7 & m8 & -> & _).
  apply (first_seen_order _ (m1 ++ m3) x (m5 ++ m7) y m8).
  rewrite Em, <-!app_assoc. simpl. by rewrite <-?app_assoc.
Qed.

(** C3.  With a non-empty [region_kms_key_ids], [prepareRegions] reports
    each region of [omi_regions] that is not a key of it exactly once,
    however often the region is listed, and whether or not it is the region
    of the access context: the errors are those of the listed regions that
    are not keys, each once, in first-seen order. *)
Theorem prepareRegions_not_in_kms c accessConfig r :
  0 < size (OMIRegionKMSKeyIDs c) →
  r ∈ OMIRegions c →
  OMIRegionKMSKeyIDs c !! r = None →
  occurrences (err_not_in_region_kms_key_ids r)
    (out_errs (prepareRegions c accessConfig)) = 1
  ∧ out_errs (prepareRegions c accessConfig)
    = err_not_in_region_kms_key_ids <$>
        filter (λ x, OMIRegionKMSKeyIDs c !! x = None) (first_seen (OMIRegions c)).
Proof.
  intros Hsz Hr Hkey. rewrite prepareRegions_errs, decide_True by done.
  split; [|done].
  rewrite occurrences_fmap by apply err_not_in_region_kms_key_ids_inj.
  apply occurrences_NoDup; [apply NoDup_filter, NoDup_first_seen|].
  apply list_elem_of_filter. split; [done|]. by apply elem_of_first_seen.
Qed.

(** C6.  Running [prepareRegions] again on the record it left gives the
    same region list, in fact the same record, and reports nothing that the
    first run did not report. *)
Theorem prepareRegions_again c accessConfig :
  OMIRegions (out_config (prepareRegions (out_config (prepareRegions c accessConfig))
                            accessConfig))
  = OMIRegions (out_config (prepareRegions c accessConfig))
  ∧ out_config (prepareRegions (out_config (prepareRegions c accessConfig))
                  accessConfig)
    = out_config (prepareRegions c accessConfig)
  ∧ out_errs (prepareRegions (out_config (prepareRegions c accessConfig))
                accessConfig)
    `sublist_of` out_errs (prepareRegions c accessConfig)
  ∧ ∀ e, e ∈ out_errs (prepareRegions (out_config (prepareRegions c accessConfig))
                         accessConfig) →
         e ∈ out_errs (prepareRegions c accessConfig).
Proof.
  assert (Hcfg :
    out_config (prepareRegions (out_config (prepareRegions c accessConfig))
                  accessConfig)
    = out_config (prepareRegions c accessConfig)).
  { rewrite (prepareRegions_config c), (prepareRegions_config (set_OMIRegions _ _)).
    cbn [set_OMIRegions OMIRegions].
    rewrite (first_seen_NoDup (filter _ _)) by apply NoDup_filter, NoDup_first_seen.
    by rewrite list_filter_filter_l. }
  assert (Hsub :
    out_errs (prepareRegions (out_config (prepareRegions c accessConfig))
                accessConfig)
    `sublist_of` out_errs (prepareRegions c accessConfig)).
  { rewrite (prepareRegions_config c), (prepareRegions_errs (set_OMIRegions _ _)),
      (prepareRegions_errs c).
    cbn [set_OMIRegions OMIRegions OMIRegionKMSKeyIDs]. case_decide; [|done].
    rewrite (first_seen_NoDup (filter _ _)) by apply NoDup_filter, NoDup_first_seen.
    apply fmap_sublist. rewrite list_filter_filter.
    rewrite <-(list_filter_filter_l
                 (λ x, OMIRegionKMSKeyIDs c !! x = None ∧ is_origin accessConfig x = false)
                 (λ x, OMIRegionKMSKeyIDs c !! x = None)) by tauto.
    apply sublist_filter. }
  split; [by rewrite Hcfg|]. split; [done|]. split; [done|].
  intros e He. by apply (elem_of_sublist _ _ _ He).
Qed.

(** C8.  [Prepare] leaves every field but [OMIRegions] as it was. *)
Theorem Prepare_frame ρ c accessConfig :
  let c' := out_config (Prepare templateCleanOMIName ρ c accessConfig) in
  OMIName c' = OMIName c
  ∧ OMIDescription c' = OMIDescription c
  ∧ OMIVirtType c' = OMIVirtType c
  ∧ OMIUsers c' = OMIUsers c
  ∧ OMIGroups c' = OMIGroups c
  ∧ OMIProductCodes c' = OMIProductCodes c
  ∧ OMISkipRegionValidation c' = OMISkipRegionValidation c
  ∧ OMITags c' = OMITags c
  ∧ OMIENASupport c' = OMIENASupport c
  ∧ OMISriovNetSupport c' = OMISriovNetSupport c
  ∧ OMIForceDeregister c' = OMIForceDeregister c
  ∧ OMIForceDeleteSnapshot c' = OMIForceDeleteSnapshot c
  ∧ OMIEncryptBootVolume c' = OMIEncryptBootVolume c
  ∧ OMIKmsKeyId c' = OMIKmsKeyId c
  ∧ OMIRegionKMSKeyIDs c' = OMIRegionKMSKeyIDs c
  ∧ SnapshotTags c' = SnapshotTags c
  ∧ SnapshotUsers c' = SnapshotUsers c
  ∧ SnapshotGroups c' = SnapshotGroups c.
Proof.
  intros c'. subst c'. rewrite Prepare_config, prepareRegions_config.
  repeat split.
Qed.

(** C10.  Two records that agree on the name, the users, the regions, the
    boot-encryption flag, the default key id, the key map and the snapshot
    users give, with the same access context, the same errors and the same
    final regions, whatever their other fields hold. *)
Theorem Prepare_reads ρ c1 c2 accessConfig :
  same_inputs c1 c2 →
  out_errs (Prepare templateCleanOMIName ρ c1 accessConfig)
  = out_errs (Prepare templateCleanOMIName ρ c2 accessConfig)
  ∧ OMIRegions (out_config (Prepare templateCleanOMIName ρ c1 accessConfig))
    = OMIRegions (out_config (Prepare templateCleanOMIName ρ c2 accessConfig)).
Proof.
  intros (Hn & Hu & Hr & He & Hk & Hm & Hs).
  split.
  - rewrite !Prepare_errs, !prepareRegions_errs.
    unfold name_missing_errs, kms_region_errs, share_errs, kms_key_errs,
      snapshot_errs, name_length_errs, name_chars_errs.
    rewrite !kmsKeys_eq.
    by rewrite Hn, Hu, Hr, He, Hk, Hm, Hs.
  - rewrite !Prepare_config, !prepareRegions_config. simpl. by rewrite Hr.
Qed.

Lemma occurrences_invalid_kms_key ρ c accessConfig k :
  occurrences (err_invalid_kms_key k)
    (out_errs (Prepare templateCleanOMIName ρ c accessConfig))
  = if validateKmsKey k then 0 else occurrences k (kmsKeys ρ c).
Proof.
  rewrite occurrences_Prepare. other_checks tail2_invalid_kms_key.
  unfold kms_key_errs.
  rewrite occurrences_fmap by apply err_invalid_kms_key_inj.
  rewrite occurrences_filter.
  destruct (validateKmsKey k); case_decide; (done || lia).
Qed.

(** C4.  The key ids that [Prepare] checks are the default key id, when it
    is not empty, and one more copy of the default key id for each entry of
    [region_kms_key_ids] whose value is empty.  Each of them that
    [validateKmsKey] rejects is reported once, by the error that names it:
    the error that names [k] is returned as many times as [k] is among the
    ids checked when [k] is rejected, and not at all when it is accepted. *)
Theorem Prepare_kms_keys ρ c accessConfig :
  kmsKeys ρ c =
    (if decide (OMIKmsKeyId c = "") then [] else [OMIKmsKeyId c])
    ++ replicate (length (empty_valued (OMIRegionKMSKeyIDs c))) (OMIKmsKeyId c)
  ∧ ∀ k, occurrences (err_invalid_kms_key k)
           (out_errs (Prepare templateCleanOMIName ρ c accessConfig))
         = if validateKmsKey k then 0 else occurrences k (kmsKeys ρ c).
Proof. split; [apply kmsKeys_eq|apply occurrences_invalid_kms_key]. Qed.

(** C5.  The error "Cannot share snapshot encrypted with default KMS key" is
    not returned when [snapshot_users] is empty.  Otherwise it is returned
    once if the default key id is empty and the boot volume is encrypted,
    and once more for each entry of [region_kms_key_ids] whose value is
    empty, encrypted boot volume or not. *)
Theorem Prepare_share_snapshot ρ c accessConfig :
  occurrences err_share_snapshot
    (out_errs (Prepare templateCleanOMIName ρ c accessConfig))
  = if decide (SnapshotUsers c = []) then 0
    else (if decide (OMIKmsKeyId c = "" ∧ OMIEncryptBootVolume c = true) then 1 else 0)
         + length (empty_valued (OMIRegionKMSKeyIDs c)).
Proof.
  rewrite occurrences_Prepare. other_checks tail2_invalid_kms_key.
  unfold snapshot_errs. case_decide; [done|].
  rewrite occurrences_app, occurrences_replicate.
  case_decide; rewrite ?occurrences_singleton, ?occurrences_nil; lia.
Qed.

(** C7.  [Prepare] returns the error on the length of the name when the
    length is below 3 or above 128, once, and only then. *)
Theorem Prepare_name_length ρ c accessConfig :
  occurrences err_name_length
    (out_errs (Prepare templateCleanOMIName ρ c accessConfig))
  = (if decide (3 ≤ String.length (OMIName c) ≤ 128) then 0 else 1)
  ∧ (err_name_length ∈ out_errs (Prepare templateCleanOMIName ρ c accessConfig)
     ↔ String.length (OMIName c) < 3 ∨ 128 < String.length (OMIName c)).
Proof.
  assert (Hn :
    occurrences err_name_length
      (out_errs (Prepare templateCleanOMIName ρ c accessConfig))
    = if decide (3 ≤ String.length (OMIName c) ≤ 128) then 0 else 1).
  { rewrite occurrences_Prepare. other_checks tail2_invalid_kms_key.
    unfold name_length_errs.
    case_decide; rewrite ?occurrences_singleton, ?occurrences_nil; lia. }
  split; [done|]. rewrite occurrences_pos, Hn. case_decide; lia.
Qed.

(** C9.  With an empty default key id, the key ids that [Prepare] checks are
    the empty string, once for each entry of [region_kms_key_ids] whose
    value is empty, and the error " is not a valid KMS Key Id.", which names
    the empty string, is returned once for each such entry. *)
Theorem Prepare_empty_default_key ρ c accessConfig :
  OMIKmsKeyId c = "" →
  kmsKeys ρ c = replicate (length (empty_valued (OMIRegionKMSKeyIDs c))) ""
  ∧ validateKmsKey "" = false
  ∧ occurrences " is not a valid KMS Key Id."
      (out_errs (Prepare templateCleanOMIName ρ c accessConfig))
    = length (empty_valued (OMIRegionKMSKeyIDs c)).
Proof.
  intros Hk.
  assert (Hks : kmsKeys ρ c
                = replicate (length (empty_valued (OMIRegionKMSKeyIDs c))) "").
  { rewrite kmsKeys_eq, Hk. by rewrite decide_True. }
  split; [done|]. split; [by vm_compute|].
  change " is not a valid KMS Key Id." with (err_invalid_kms_key "").
  rewrite occurrences_invalid_kms_key.
  replace (validateKmsKey "") with false by by vm_compute.
  by rewrite Hks, occurrences_replicate.
Qed.

End Properties.

(** ** The properties at sample records *)

(** The examples of the specification of the reconciler. *)
Example prepareRegions_samples :
  OMIRegions (out_config (prepareRegions (sample "omi-1" "" ["a"; "b"; "a"; "c"] "" ∅ []) None))
  = ["a"; "b"; "c"]
  ∧ prepareRegions (sample "omi-1" "" ["a"; "b"; "c"] "" ∅ []) (Some {| RawRegion := "b" |})
    = {| out_errs := [];
         out_config := sample "omi-1" "" ["a"; "c"] "" ∅ [];
         out_log := ["Cannot copy OMI to OUTSCALE session region 'b', deleting it from `omi_regions`."] |}
  ∧ out_errs (prepareRegions (sample "omi-1" "" ["a"; "b"] "" {["a" := "key1"]} []) None)
    = ["Region b is in omi_regions but not in region_kms_key_ids"]
  ∧ out_errs (prepareRegions (sample "omi-1" "" ["a"] "" ∅ []) None) = [].
Proof. by vm_compute. Qed.

(** A second run repeats the errors of the regions that are still listed. *)
Example prepareRegions_again_sample :
  out_errs
    (prepareRegions
       (out_config
          (prepareRegions (sample "omi-1" "" ["a"; "b"] "" {["a" := "key1"]} []) None))
       None)
  = ["Region b is in omi_regions but not in region_kms_key_ids"].
Proof. by vm_compute. Qed.

(** A valid record: no error. *)
Example Prepare_sample_ok :
  out_errs (Prepare keep_name listed_order (sample "omi-1" "" [] "" ∅ []) None) = [].
Proof. by vm_compute. Qed.

Lemma prepareRegions_not_in_kms_witness :
  0 < size (OMIRegionKMSKeyIDs (sample "omi-1" "" ["a"; "b"] "" {["a" := "key1"]} []))
  ∧ occurrences (err_not_in_region_kms_key_ids "b")
      (out_errs (prepareRegions (sample "omi-1" "" ["a"; "b"] "" {["a" := "key1"]} [])
                   (Some {| RawRegion := "b" |}))) = 1.
Proof.
  split; [vm_compute; lia|].
  refine (proj1 (prepareRegions_not_in_kms
           (sample "omi-1" "" ["a"; "b"] "" {["a" := "key1"]} [])
           (Some {| RawRegion := "b" |}) "b" _ _ _)).
  - vm_compute. lia.
  - simpl. repeat constructor.
  - vm_compute. reflexivity.
Defined.

Lemma Prepare_empty_default_key_witness :
  OMIKmsKeyId (sample "omi-1" "" ["a"; "b"] "" {["a" := ""; "b" := ""]} []) = ""
  ∧ occurrences " is not a valid KMS Key Id."
      (out_errs (Prepare keep_name reversed_order
                   (sample "omi-1" "" ["a"; "b"] "" {["a" := ""; "b" := ""]} []) None))
    = 2.
Proof.
  split; [reflexivity|].
  destruct (Prepare_empty_default_key keep_name reversed_order
              (sample "omi-1" "" ["a"; "b"] "" {["a" := ""; "b" := ""]} []) None
              eq_refl) as (_ & _ & ->).
  vm_compute. reflexivity.
Defined.

Lemma Prepare_reads_witness :
  same_inputs (sample "omi-1" "first" ["a"; "b"] "" {["a" := "key1"]} ["u"])
              (sample "omi-1" "second" ["a"; "b"] "" {["a" := "key1"]} ["u"])
  ∧ out_errs (Prepare keep_name listed_order
                (sample "omi-1" "first" ["a"; "b"] "" {["a" := "key1"]} ["u"]) None)
    = out_errs (Prepare keep_name listed_order
                  (sample "omi-1" "second" ["a"; "b"] "" {["a" := "key1"]} ["u"]) None).
Proof.
  split; [by repeat split|].
  refine (proj1 (Prepare_reads keep_name listed_order
           (sample "omi-1" "first" ["a"; "b"] "" {["a" := "key1"]} ["u"])
           (sample "omi-1" "second" ["a"; "b"] "" {["a" := "key1"]} ["u"]) None _)).
  by repeat split.
Defined.

(** * More about the checks *)

(** ** stringInSlice *)

(** X1.  [stringInSlice] is membership in the slice: true when the string is
    an entry, false when it is not, and over two slices put end to end it is
    true when it is for one of them. *)
Theorem stringInSlice_member (s s' : list string) (searchstr : string) :
  (stringInSlice s searchstr = true ↔ searchstr ∈ s)
  ∧ (stringInSlice s searchstr = false ↔ searchstr ∉ s)
  ∧ stringInSlice (s ++ s') searchstr
    = stringInSlice s searchstr || stringInSlice s' searchstr.
Proof.
  assert (Hin : ∀ l, stringInSlice l searchstr = true ↔ searchstr ∈ l).
  { induction l as [|y l IH]; simpl.
    - split; [done|by intros ?%elem_of_nil].
    - rewrite elem_of_cons. case_decide; naive_solver. }
  split; [apply Hin|]. split.
  - rewrite <-Hin. by destruct (stringInSlice s searchstr).
  - induction s as [|y s IH]; simpl; [done|]. by case_decide.
Qed.

(** ** Counting the other messages *)

Lemma err_not_in_omi_regions_inj k k' :
  err_not_in_omi_regions k = err_not_in_omi_regions k' → k = k'.
Proof.
  unfold err_not_in_omi_regions. intros E.
  apply String.app_inj in E. by apply app_string_inj_r in E.
Qed.

Lemma occurrences_Permutation e l l' : l ≡ₚ l' → occurrences e l = occurrences e l'.
Proof. intros H. unfold occurrences. by rewrite H. Qed.

Lemma occurrences_key (m : gmap string string) k :
  occurrences k (map_to_list m).*1 = if decide (is_Some (m !! k)) then 1 else 0.
Proof.
  case_decide as Hk.
  - apply occurrences_NoDup; [apply NoDup_fst_map_to_list|].
    destruct Hk as [v Hv]. apply list_elem_of_fmap. exists (k, v).
    split; [done|]. by apply elem_of_map_to_list.
  - apply occurrences_not_in. intros ([k' v] & -> & Hin)%list_elem_of_fmap.
    apply elem_of_map_to_list in Hin. apply Hk. by exists v.
Qed.

Lemma filter_fst_fmap (P : string → Prop) `{!∀ x, Decision (P x)}
    (l : list (string * string)) :
  (filter (λ kv, P kv.1) l).*1 = filter P l.*1.
Proof.
  induction l as [|[k v] l IH]; [done|]. rewrite fmap_cons, !filter_cons. simpl.
  case_decide; [rewrite fmap_cons|]; by rewrite IH.
Qed.

Section MoreCounts.

Context {TagMap : Type}.
Variable templateCleanOMIName : string → string.
Implicit Types (c : OMIConfig TagMap) (accessConfig : option AccessConfig).
Implicit Types (ρ : RangeOrder).

Lemma kms_region_errs_keys ρ c :
  kms_region_errs ρ c
  = err_not_in_omi_regions <$>
      filter (λ k, k ∉ OMIRegions c) (range_at ρ 0 (OMIRegionKMSKeyIDs c)).*1.
Proof.
  unfold kms_region_errs. rewrite <-filter_fst_fmap, <-list_fmap_compose. done.
Qed.

Lemma occurrences_not_in_omi_regions ρ c accessConfig k :
  occurrences (err_not_in_omi_regions k)
    (out_errs (Prepare templateCleanOMIName ρ c accessConfig))
  = if decide (is_Some (OMIRegionKMSKeyIDs c !! k) ∧ k ∉ OMIRegions c) then 1 else 0.
Proof.
  rewrite occurrences_Prepare. other_checks tail2_not_in_omi_regions.
  rewrite kms_region_errs_keys.
  rewrite occurrences_fmap by apply err_not_in_omi_regions_inj.
  rewrite occurrences_filter.
  rewrite (occurrences_Permutation _ _ (map_to_list (OMIRegionKMSKeyIDs c)).*1)
    by (by rewrite (range_at_perm ρ 0)).
  rewrite occurrences_key.
  repeat case_decide; (lia || tauto).
Qed.

(** X2.  [Prepare] reports a key of [region_kms_key_ids] that is not listed
    in [omi_regions] once, and reports no other region in this way.  The
    regions looked at are those of the record as it is passed in, the region
    of the access context included. *)
Theorem Prepare_not_in_omi_regions ρ c accessConfig k :
  occurrences (err_not_in_omi_regions k)
    (out_errs (Prepare templateCleanOMIName ρ c accessConfig))
  = if decide (is_Some (OMIRegionKMSKeyIDs c !! k) ∧ k ∉ OMIRegions c) then 1 else 0.
Proof. apply occurrences_not_in_omi_regions. Qed.

(** X3.  "omi_name must be specified" is returned once when the name is
    empty and not otherwise; with an empty name the error on the length of
    the name is returned as well. *)
Theorem Prepare_name_missing ρ c accessConfig :
  occurrences err_name_missing
    (out_errs (Prepare templateCleanOMIName ρ c accessConfig))
  = (if decide (OMIName c = "") then 1 else 0)
  ∧ (err_name_missing ∈ out_errs (Prepare templateCleanOMIName ρ c accessConfig) →
     err_name_length ∈ out_errs (Prepare templateCleanOMIName ρ c accessConfig)).
Proof.
  assert (Hn :
    occurrences err_name_missing
      (out_errs (Prepare templateCleanOMIName ρ c accessConfig))
    = if decide (OMIName c = "") then 1 else 0).
  { rewrite occurrences_Prepare. other_checks tail2_invalid_kms_key.
    unfold name_missing_errs.
    case_decide; rewrite ?occurrences_singleton, ?occurrences_nil; lia. }
  split; [done|]. rewrite !occurrences_pos, Hn.
  rewrite occurrences_Prepare. case_decide as He; [|lia]. intros _.
  unfold name_length_errs. rewrite He.
  rewrite (decide_False (P := 3 ≤ _ ≤ 128)) by (simpl; lia).
  rewrite occurrences_singleton. lia.
Qed.

(** X4.  "Cannot share OMI with encrypted boot volume" is returned once when
    [omi_users] is not empty and the boot volume is encrypted, whatever the
    other fields hold, and not otherwise. *)
Theorem Prepare_share_encrypted ρ c accessConfig :
  occurrences err_share_encrypted
    (out_errs (Prepare templateCleanOMIName ρ c accessConfig))
  = if decide (OMIUsers c ≠ [] ∧ OMIEncryptBootVolume c = true) then 1 else 0.
Proof.
  rewrite occurrences_Prepare. other_checks tail2_invalid_kms_key.
  unfold share_errs.
  case_decide; rewrite ?occurrences_singleton, ?occurrences_nil; lia.
Qed.

(** X5.  The error on the characters of the name is returned once when the
    name differs from what the [clean_omi_name] filter makes of it, and not
    otherwise. *)
Theorem Prepare_name_chars ρ c accessConfig :
  occurrences err_name_chars
    (out_errs (Prepare templateCleanOMIName ρ c accessConfig))
  = if decide (OMIName c = templateCleanOMIName (OMIName c)) then 0 else 1.
Proof.
  rewrite occurrences_Prepare. other_checks tail2_invalid_kms_key.
  unfold name_chars_errs.
  case_decide; rewrite ?occurrences_singleton, ?occurrences_nil; lia.
Qed.

(** X6.  In the result of [Prepare] the error that names a region as
    missing from [region_kms_key_ids] is there once when the map is not
    empty and the region is listed and is not a key, and is not there
    otherwise: not for a key, not for a region that is not listed, not with
    an empty map. *)
Theorem Prepare_not_in_kms ρ c accessConfig r :
  occurrences (err_not_in_region_kms_key_ids r)
    (out_errs (Prepare templateCleanOMIName ρ c accessConfig))
  = if decide (0 < size (OMIRegionKMSKeyIDs c) ∧ r ∈ OMIRegions c
               ∧ OMIRegionKMSKeyIDs c !! r = None)
    then 1 else 0.
Proof.
  rewrite occurrences_Prepare. other_checks tail2_not_in_region_kms_key_ids.
  rewrite prepareRegions_errs. case_decide as Hsz.
  - rewrite occurrences_fmap by apply err_not_in_region_kms_key_ids_inj.
    rewrite occurrences_filter. case_decide as Hkey.
    + destruct (decide (r ∈ OMIRegions c)) as [Hr|Hr].
      * rewrite occurrences_NoDup
          by (apply NoDup_first_seen || by apply elem_of_first_seen).
        rewrite decide_True by done. lia.
      * rewrite occurrences_not_in by by rewrite elem_of_first_seen.
        rewrite decide_False by tauto. lia.
    + rewrite decide_False by tauto. lia.
  - rewrite occurrences_nil, decide_False by tauto. lia.
Qed.

End MoreCounts.

(** ** When Prepare accepts *)

Lemma fmap_filter_nil {A B} (f : A → B) (P : A → Prop) `{!∀ x, Decision (P x)}
    (l : list A) :
  f <$> filter P l = [] ↔ ∀ x, x ∈ l → ¬ P x.
Proof.
  split.
  - intros E%fmap_nil_inv x Hx HP. by apply (filter_nil_not_elem_of _ _ x E).
  - intros Hall. induction l as [|x l IH]; [done|].
    rewrite filter_cons_False by (apply Hall; left). apply IH.
    intros y Hy. apply Hall. by right.
Qed.

Lemma empty_valued_nil (m : gmap string string) :
  empty_valued m = [] ↔ ∀ k, m !! k ≠ Some "".
Proof.
  unfold empty_valued. split.
  - intros E k Hk. apply (filter_nil_not_elem_of _ _ (k, "") E); [done|].
    by apply elem_of_map_to_list.
  - intros H. apply (fmap_nil_inv id). rewrite fmap_filter_nil.
    intros [k v] Hkv%elem_of_map_to_list. simpl. intros ->. by apply (H k).
Qed.

Section Accepts.

Context {TagMap : Type}.
Variable templateCleanOMIName : string → string.
Implicit Types (c : OMIConfig TagMap) (accessConfig : option AccessConfig).
Implicit Types (ρ : RangeOrder).

Lemma kms_region_errs_nil ρ c :
  kms_region_errs ρ c = [] ↔
  ∀ k, is_Some (OMIRegionKMSKeyIDs c !! k) → k ∈ OMIRegions c.
Proof.
  unfold kms_region_errs. rewrite fmap_filter_nil. split.
  - intros H k [v Hv]. destruct (decide (k ∈ OMIRegions c)) as [|Hk]; [done|].
    exfalso. apply (H (k, v)); [|done].
    rewrite (range_at_perm ρ 0). by apply elem_of_map_to_list.
  - intros H [k v] Hkv. rewrite (range_at_perm ρ 0) in Hkv.
    apply elem_of_map_to_list in Hkv. simpl. intros Hk. apply Hk, H. by exists v.
Qed.

Lemma prepareRegions_errs_nil c accessConfig :
  out_errs (prepareRegions c accessConfig) = [] ↔
  (OMIRegionKMSKeyIDs c ≠ ∅ →
   ∀ r, r ∈ OMIRegions c → is_Some (OMIRegionKMSKeyIDs c !! r)).
Proof.
  rewrite prepareRegions_errs. case_decide as Hsz.
  - rewrite fmap_filter_nil. split.
    + intros H _ r Hr. apply (proj2 (elem_of_first_seen _ _)) in Hr.
      apply not_eq_None_Some. by apply H.
    + intros H r Hr Hnone. apply (proj1 (elem_of_first_seen _ _)) in Hr.
      destruct (H ltac:(apply map_size_non_empty_iff; lia) r Hr) as [v Hv].
      congruence.
  - split; [|done]. intros _ Hne. apply map_size_non_empty_iff in Hne. lia.
Qed.

Lemma kms_key_errs_nil ρ c :
  kms_key_errs ρ c = [] ↔
  (OMIKmsKeyId c ≠ "" ∨ empty_valued (OMIRegionKMSKeyIDs c) ≠ [] →
   validateKmsKey (OMIKmsKeyId c) = true).
Proof.
  unfold kms_key_errs. rewrite fmap_filter_nil, kmsKeys_eq. split.
  - intros H Hor. apply not_false_iff_true. apply (H (OMIKmsKeyId c)).
    apply elem_of_app. destruct Hor as [Hk|He].
    + left. rewrite decide_False by done. left.
    + right. apply elem_of_replicate. split; [done|].
      destruct (empty_valued _); [done|]. simpl. lia.
  - intros H k Hk Hinv. apply elem_of_app in Hk as [Hk|Hk].
    + case_decide as Hd; [by apply elem_of_nil in Hk|].
      apply list_elem_of_singleton in Hk as ->. rewrite H in Hinv by auto. done.
    + apply elem_of_replicate in Hk as [-> Hn]. rewrite H in Hinv; [done|].
      right. intros E. rewrite E in Hn. done.
Qed.

(** X7.  [Prepare] returns no error exactly when: the name has 3 to 128
    bytes and is what the [clean_omi_name] filter makes of it; every key of
    [region_kms_key_ids] is listed in [omi_regions] and, when the map is not
    empty, every listed region is a key; the image is not both shared with
    users and encrypted; the default key id is accepted by [validateKmsKey]
    when it is not empty or when an entry of the map has an empty value; and,
    when the snapshot is shared with users, no entry of the map has an empty
    value and the boot volume is not encrypted with an empty default key
    id. *)
Theorem Prepare_accepts ρ c accessConfig :
  out_errs (Prepare templateCleanOMIName ρ c accessConfig) = [] ↔
    3 ≤ String.length (OMIName c) ≤ 128
  ∧ OMIName c = templateCleanOMIName (OMIName c)
  ∧ (∀ k, is_Some (OMIRegionKMSKeyIDs c !! k) → k ∈ OMIRegions c)
  ∧ (OMIRegionKMSKeyIDs c ≠ ∅ →
     ∀ r, r ∈ OMIRegions c → is_Some (OMIRegionKMSKeyIDs c !! r))
  ∧ ¬ (OMIUsers c ≠ [] ∧ OMIEncryptBootVolume c = true)
  ∧ (OMIKmsKeyId c ≠ "" ∨ (∃ k, OMIRegionKMSKeyIDs c !! k = Some "") →
     validateKmsKey (OMIKmsKeyId c) = true)
  ∧ (SnapshotUsers c ≠ [] →
     ¬ (OMIKmsKeyId c = "" ∧ OMIEncryptBootVolume c = true)
     ∧ ∀ k, OMIRegionKMSKeyIDs c !! k ≠ Some "").
Proof.
  rewrite Prepare_errs, !app_nil.
  rewrite kms_region_errs_nil, prepareRegions_errs_nil, kms_key_errs_nil.
  assert (Hev : empty_valued (OMIRegionKMSKeyIDs c) ≠ [] ↔
                ∃ k, OMIRegionKMSKeyIDs c !! k = Some "").
  { split.
    - destruct (empty_valued _) as [|[k v] l] eqn:E; [done|]. intros _.
      assert (Hin : (k, v) ∈ empty_valued (OMIRegionKMSKeyIDs c))
        by (rewrite E; left).
      apply list_elem_of_filter in Hin as [Hv Hin]. simpl in Hv. subst v.
      exists k. by apply elem_of_map_to_list.
    - rewrite empty_valued_nil. intros [k Hk] H. by apply (H k). }
  rewrite Hev.
  assert (Hname : name_missing_errs c = [] ↔ OMIName c ≠ "").
  { unfold name_missing_errs. case_decide; naive_solver. }
  assert (Hshare : share_errs c = [] ↔
                   ¬ (OMIUsers c ≠ [] ∧ OMIEncryptBootVolume c = true)).
  { unfold share_errs. case_decide; naive_solver. }
  assert (Hsnap : snapshot_errs c = [] ↔
                  (SnapshotUsers c ≠ [] →
                   ¬ (OMIKmsKeyId c = "" ∧ OMIEncryptBootVolume c = true)
                   ∧ ∀ k, OMIRegionKMSKeyIDs c !! k ≠ Some "")).
  { unfold snapshot_errs. case_decide as Hs; [naive_solver|].
    rewrite app_nil, <-empty_valued_nil. split.
    - intros [H1 H2] _. split.
      + intros Hd. by rewrite decide_True in H1.
      + destruct (empty_valued _); [done|discriminate].
    - intros H. destruct (H Hs) as [H1 ->]. by rewrite decide_False. }
  assert (Hlen : name_length_errs c = [] ↔ 3 ≤ String.length (OMIName c) ≤ 128).
  { unfold name_length_errs. case_decide; naive_solver. }
  assert (Hchars : name_chars_errs templateCleanOMIName c = [] ↔
                   OMIName c = templateCleanOMIName (OMIName c)).
  { unfold name_chars_errs. case_decide; naive_solver. }
  rewrite Hname, Hshare, Hsnap, Hlen, Hchars.
  split.
  - intros (_ & Hk & Hr & Hs & Hv & Hsn & Hl & Hc).
    exact (conj Hl (conj Hc (conj Hk (conj Hr (conj Hs (conj Hv Hsn)))))).
  - intros (Hl & Hc & Hk & Hr & Hs & Hv & Hsn).
    refine (conj _ (conj Hk (conj Hr (conj Hs (conj Hv (conj Hsn (conj Hl Hc))))))).
    intros E. rewrite E in Hl. simpl in Hl. lia.
Qed.

End Accepts.

(** ** The regions, the log and the order of the errors *)

Lemma first_seen_sublist l : first_seen l `sublist_of` l.
Proof.
  induction l as [|x l IH]; [done|]. rewrite first_seen_cons.
  apply sublist_skip. etrans; [apply sublist_filter|done].
Qed.

Lemma filter_origin_NoDup a (l : list string) :
  NoDup l →
  filter (λ r, is_origin (Some a) r = true) l
  = if decide (RawRegion a ∈ l) then [RawRegion a] else [].
Proof.
  induction 1 as [|x l Hx Hl IH]; [done|]. rewrite filter_cons, IH. simpl.
  destruct (decide (x = RawRegion a)) as [->|Hne].
  - rewrite bool_decide_eq_true_2 by done.
    rewrite (decide_True (P := true = true)) by done.
    rewrite (decide_False (P := _ ∈ l)) by done.
    by rewrite (decide_True (P := _ ∈ _ :: l)) by left.
  - rewrite bool_decide_eq_false_2 by done.
    rewrite (decide_False (P := false = true)) by done.
    destruct (decide (RawRegion a ∈ l)) as [Hin|Hin].
    + by rewrite (decide_True (P := _ ∈ _ :: l)) by by right.
    + rewrite (decide_False (P := _ ∈ _ :: l)); [done|].
      rewrite elem_of_cons. naive_solver.
Qed.

Lemma set_OMIRegions_same {TagMap : Type} (c : OMIConfig TagMap) :
  set_OMIRegions c (OMIRegions c) = c.
Proof. by destruct c. Qed.

Section RegionsAndLog.

Context {TagMap : Type}.
Variable templateCleanOMIName : string → string.
Implicit Types (c : OMIConfig TagMap) (accessConfig : option AccessConfig).
Implicit Types (ρ : RangeOrder).

(** X8.  The errors of [Prepare] come check by check in the order of the
    source: the missing name, the keys of the map that are not listed, the
    errors of [prepareRegions], the shared encrypted image, the key ids that
    are not valid, the shared snapshot, the length of the name, the
    characters of the name. *)
Theorem Prepare_errs_in_order ρ c accessConfig :
  out_errs (Prepare templateCleanOMIName ρ c accessConfig) =
  name_missing_errs c ++ kms_region_errs ρ c
  ++ out_errs (prepareRegions c accessConfig)
  ++ share_errs c ++ kms_key_errs ρ c ++ snapshot_errs c
  ++ name_length_errs c ++ name_chars_errs templateCleanOMIName c.
Proof. apply Prepare_errs. Qed.

(** X9.  The log gets one line, which names the region of the access
    context, when that region is listed in [omi_regions], however often, and
    no line otherwise. *)
Theorem Prepare_log ρ c accessConfig :
  out_log (Prepare templateCleanOMIName ρ c accessConfig)
  = match accessConfig with
    | Some a =>
        if decide (RawRegion a ∈ OMIRegions c)
        then [log_drop_region (RawRegion a)] else []
    | None => []
    end.
Proof.
  change (out_log (Prepare templateCleanOMIName ρ c accessConfig))
    with (out_log (prepareRegions c accessConfig)).
  rewrite prepareRegions_log. destruct accessConfig as [a|].
  - rewrite filter_origin_NoDup by apply NoDup_first_seen.
    destruct (decide (RawRegion a ∈ OMIRegions c)) as [Hin|Hin].
    + by rewrite decide_True by by apply elem_of_first_seen.
    + by rewrite decide_False by by rewrite elem_of_first_seen.
  - induction (first_seen (OMIRegions c)) as [|x l IH]; [done|].
    by rewrite filter_cons_False.
Qed.

End RegionsAndLog.

Section Reruns.

Context {TagMap : Type}.
Variable templateCleanOMIName : string → string.
Implicit Types (c : OMIConfig TagMap) (accessConfig : option AccessConfig).
Implicit Types (ρ : RangeOrder).

(** X10.  [Prepare] only takes regions away: the regions it leaves are
    regions of the input in the order of the input, so there are no more of
    them than before. *)
Theorem Prepare_regions_sublist ρ c accessConfig :
  OMIRegions (out_config (Prepare templateCleanOMIName ρ c accessConfig))
    `sublist_of` OMIRegions c
  ∧ length (OMIRegions (out_config (Prepare templateCleanOMIName ρ c accessConfig)))
    ≤ length (OMIRegions c).
Proof.
  assert (Hsub :
    OMIRegions (out_config (Prepare templateCleanOMIName ρ c accessConfig))
      `sublist_of` OMIRegions c).
  { rewrite Prepare_config, prepareRegions_config. simpl.
    etrans; [apply sublist_filter|apply first_seen_sublist]. }
  split; [done|by apply sublist_length].
Qed.

(** X11.  A record whose regions are listed once each and do not include
    the region of the access context is left as it is by [Prepare], and
    nothing is logged. *)
Theorem Prepare_keeps_clean_regions ρ c accessConfig :
  NoDup (OMIRegions c) →
  (∀ a, accessConfig = Some a → RawRegion a ∉ OMIRegions c) →
  out_config (Prepare templateCleanOMIName ρ c accessConfig) = c
  ∧ out_log (Prepare templateCleanOMIName ρ c accessConfig) = [].
Proof.
  intros Hnd Ho. split.
  - rewrite Prepare_config, prepareRegions_config, first_seen_NoDup by done.
    rewrite filter_id; [apply set_OMIRegions_same|].
    apply Forall_forall. intros r Hr. destruct accessConfig as [a|]; [|done].
    simpl. apply bool_decide_eq_false_2. intros ->. by apply (Ho a).
  - change (out_log (Prepare templateCleanOMIName ρ c accessConfig))
      with (out_log (prepareRegions c accessConfig)).
    rewrite prepareRegions_log, first_seen_NoDup by done.
    apply fmap_filter_nil. intros r Hr. destruct accessConfig as [a|]; [|done].
    simpl. rewrite bool_decide_eq_true. intros ->. by apply (Ho a).
Qed.

Lemma Prepare_config_again ρ ρ' c accessConfig :
  out_config (Prepare templateCleanOMIName ρ'
                (out_config (Prepare templateCleanOMIName ρ c accessConfig))
                accessConfig)
  = out_config (Prepare templateCleanOMIName ρ c accessConfig).
Proof.
  rewrite !Prepare_config.
  rewrite (prepareRegions_config c), (prepareRegions_config (set_OMIRegions _ _)).
  cbn [set_OMIRegions OMIRegions].
  rewrite (first_seen_NoDup (filter _ _)) by apply NoDup_filter, NoDup_first_seen.
  by rewrite list_filter_filter_l.
Qed.

(** X12.  A second call of [Prepare] on the record that the first call left
    leaves the same record.  But when the region of the access context is
    listed in [omi_regions] and is a key of [region_kms_key_ids], the first
    call drops it from the regions without an error on that key, and the
    second call then reports the key as not listed in [omi_regions]. *)
Theorem Prepare_again_origin_key ρ ρ' c a :
  RawRegion a ∈ OMIRegions c →
  is_Some (OMIRegionKMSKeyIDs c !! RawRegion a) →
  out_config (Prepare templateCleanOMIName ρ'
                (out_config (Prepare templateCleanOMIName ρ c (Some a))) (Some a))
  = out_config (Prepare templateCleanOMIName ρ c (Some a))
  ∧ occurrences (err_not_in_omi_regions (RawRegion a))
      (out_errs (Prepare templateCleanOMIName ρ c (Some a))) = 0
  ∧ occurrences (err_not_in_omi_regions (RawRegion a))
      (out_errs (Prepare templateCleanOMIName ρ'
                   (out_config (Prepare templateCleanOMIName ρ c (Some a))) (Some a)))
    = 1.
Proof.
  intros Hin Hkey. split; [apply Prepare_config_again|].
  rewrite !occurrences_not_in_omi_regions. split.
  - rewrite decide_False; [done|]. tauto.
  - rewrite Prepare_config, prepareRegions_config.
    cbn [set_OMIRegions OMIRegions OMIRegionKMSKeyIDs].
    rewrite decide_True; [done|]. split; [done|].
    rewrite list_elem_of_filter. simpl. rewrite bool_decide_eq_false. tauto.
Qed.

(** X13.  The order in which the maps are ranged over changes nothing but
    the order of the errors: with two orders [Prepare] leaves the same
    record, logs the same lines and checks the same key ids, and the errors
    of the one run are the errors of the other in some order. *)
Theorem Prepare_range_order ρ ρ' c accessConfig :
  out_config (Prepare templateCleanOMIName ρ c accessConfig)
  = out_config (Prepare templateCleanOMIName ρ' c accessConfig)
  ∧ out_log (Prepare templateCleanOMIName ρ c accessConfig)
    = out_log (Prepare templateCleanOMIName ρ' c accessConfig)
  ∧ kmsKeys ρ c = kmsKeys ρ' c
  ∧ out_errs (Prepare templateCleanOMIName ρ c accessConfig)
    ≡ₚ out_errs (Prepare templateCleanOMIName ρ' c accessConfig).
Proof.
  split; [done|]. split; [done|]. split; [by rewrite !kmsKeys_eq|].
  rewrite !Prepare_errs. unfold kms_region_errs, kms_key_errs.
  rewrite !kmsKeys_eq, (range_at_perm ρ 0), (range_at_perm ρ' 0). done.
Qed.

(** X14.  The only key id that [Prepare] ever reports as not valid is the
    default key id: the values of [region_kms_key_ids] are not checked.  The
    error that names [k] is returned only for [k] the default key id when
    [validateKmsKey] rejects it, once if it is not empty and once for each
    entry of the map whose value is empty. *)
Theorem Prepare_checks_default_key_only ρ c accessConfig k :
  occurrences (err_invalid_kms_key k)
    (out_errs (Prepare templateCleanOMIName ρ c accessConfig))
  = if decide (k = OMIKmsKeyId c ∧ validateKmsKey k = false)
    then (if decide (k = "") then 0 else 1)
         + length (empty_valued (OMIRegionKMSKeyIDs c))
    else 0.
Proof.
  rewrite occurrences_invalid_kms_key, kmsKeys_eq, occurrences_app.
  destruct (validateKmsKey k) eqn:Ev.
  { rewrite (decide_False (P := _ ∧ _)); [done|]. by intros [_ ?]. }
  destruct (decide (k = OMIKmsKeyId c)) as [->|Hne].
  - rewrite (decide_True (P := _ ∧ _)) by done. rewrite occurrences_replicate.
    case_decide; by rewrite ?occurrences_singleton, ?occurrences_nil.
  - rewrite (decide_False (P := _ ∧ _)) by tauto.
    rewrite !occurrences_not_in; [done| |].
    + intros [-> _]%elem_of_replicate. done.
    + case_decide; [by intros ?%elem_of_nil|].
      by intros ->%list_elem_of_singleton.
Qed.

End Reruns.

(** ** More about validateKmsKey *)

Lemma validateKmsKey_true kmsKey :
  validateKmsKey kmsKey = true ↔
  is_key_id kmsKey ∨ is_alias kmsKey ∨ is_key_arn kmsKey ∨ is_alias_arn kmsKey.
Proof.
  rewrite <-key_id_shape, <-alias_shape, <-key_arn_shape, <-alias_arn_shape.
  unfold validateKmsKey.
  repeat match goal with |- context [if ?b then _ else _] => destruct b end;
    naive_solver.
Qed.

Lemma all_chars_app set (a b : string) :
  all_chars set (a +:+ b) ↔ all_chars set a ∧ all_chars set b.
Proof. unfold all_chars. by rewrite chars_app, Forall_app. Qed.

Lemma all_chars_mono set set' (s : string) :
  (∀ c, char_in set c = true → char_in set' c = true) →
  all_chars set s → all_chars set' s.
Proof. intros Hsub Hs. by apply (Forall_impl _ _ _ Hs). Qed.

Lemma all_chars_not_in set (s : string) (c : ascii) :
  char_in set c = false → all_chars set s → c ∉ chars s.
Proof.
  intros Hc Hs Hin. unfold all_chars in Hs.
  rewrite Forall_forall in Hs. apply Hs in Hin. congruence.
Qed.

Lemma key_id_set_alias_set c :
  char_in "abcdef0123456789-" c = true →
  char_in (lower_letters +:+ upper_letters +:+ digits +:+ ":/_-") c = true.
Proof. by destruct c as [[] [] [] [] [] [] [] []]. Qed.

Lemma lower_set_alias_set c :
  char_in lower_letters c = true →
  char_in (lower_letters +:+ upper_letters +:+ digits +:+ ":/_-") c = true.
Proof. by destruct c as [[] [] [] [] [] [] [] []]. Qed.

Lemma digit_set_alias_set c :
  char_in digits c = true →
  char_in (lower_letters +:+ upper_letters +:+ digits +:+ ":/_-") c = true.
Proof. by destruct c as [[] [] [] [] [] [] [] []]. Qed.

Lemma lower_set_region_set c :
  char_in lower_letters c = true → char_in (lower_letters +:+ digits +:+ "-") c = true.
Proof. by destruct c as [[] [] [] [] [] [] [] []]. Qed.

Lemma digit_set_region_set c :
  char_in digits c = true → char_in (lower_letters +:+ digits +:+ "-") c = true.
Proof. by destruct c as [[] [] [] [] [] [] [] []]. Qed.

(** A literal is made of the bytes of a set: by evaluation. *)
Ltac literal_chars := unfold all_chars; simpl; by repeat constructor.

Lemma is_region_chars set (s : string) :
  (∀ c, char_in lower_letters c = true → char_in set c = true) →
  (∀ c, char_in digits c = true → char_in set c = true) →
  all_chars set "-" →
  is_region s → all_chars set s.
Proof.
  intros Hlow Hdig Hdash (cc & word & d & gov & -> & _ & Hcc & _ & Hword & _ & Hd).
  rewrite !all_chars_app.
  repeat split; try done; eauto using all_chars_mono.
  destruct gov; [|by constructor].
  apply (all_chars_app set "gov" "-"). split; [|done].
  eapply all_chars_mono; [exact Hlow|]. literal_chars.
Qed.

Lemma is_arn_start_chars (s : string) :
  is_arn_start s →
  all_chars (lower_letters +:+ upper_letters +:+ digits +:+ ":/_-") s.
Proof.
  intros (region & account & -> & Hreg & _ & Hacc).
  rewrite !all_chars_app. split; [literal_chars|]. split.
  { destruct Hreg as [->|Hreg]; [by constructor|].
    eapply is_region_chars;
      eauto using lower_set_alias_set, digit_set_alias_set. literal_chars. }
  split; [literal_chars|]. split; [|literal_chars].
  eauto using all_chars_mono, digit_set_alias_set.
Qed.

Lemma is_key_id_chars (s : string) :
  is_key_id s →
  all_chars (lower_letters +:+ upper_letters +:+ digits +:+ ":/_-") s.
Proof. intros [_ Hs]. eauto using all_chars_mono, key_id_set_alias_set. Qed.

Lemma is_alias_chars (s : string) :
  is_alias s →
  all_chars (lower_letters +:+ upper_letters +:+ digits +:+ ":/_-") s.
Proof.
  intros (body & -> & _ & Hb). apply all_chars_app. split; [literal_chars|done].
Qed.

(** X15.  A key that [validateKmsKey] accepts is not empty and is made of
    letters, digits and the bytes [:/_-] only: a key with a space, a line
    break or any other byte is rejected. *)
Theorem validateKmsKey_chars kmsKey :
  validateKmsKey kmsKey = true →
  kmsKey ≠ ""
  ∧ all_chars (lower_letters +:+ upper_letters +:+ digits +:+ ":/_-") kmsKey.
Proof.
  intros [Hk|[Ha|[Hk|Ha]]]%validateKmsKey_true.
  - split; [by destruct Hk|by apply is_key_id_chars].
  - split; [|by apply is_alias_chars]. by destruct Ha as (body & -> & _).
  - destruct Hk as (start & id & -> & Hs & Hid). split.
    + destruct Hs as (region & account & -> & _). done.
    + rewrite !all_chars_app.
      split; [by apply is_arn_start_chars|]. split; [literal_chars|].
      by apply is_key_id_chars.
  - destruct Ha as (start & al & -> & Hs & Hal). split.
    + destruct Hs as (region & account & -> & _). done.
    + rewrite !all_chars_app.
      split; [by apply is_arn_start_chars|by apply is_alias_chars].
Qed.

Lemma validateKmsKey_chars_witness :
  validateKmsKey "alias/my-key" = true
  ∧ all_chars (lower_letters +:+ upper_letters +:+ digits +:+ ":/_-") "alias/my-key".
Proof.
  split; [by vm_compute|].
  exact (proj2 (validateKmsKey_chars "alias/my-key" eq_refl)).
Defined.

Lemma app_sep_inj {A} (c : A) (a b x y : list A) :
  c ∉ a → c ∉ b → a ++ c :: x = b ++ c :: y → a = b ∧ x = y.
Proof.
  revert b. induction a as [|a0 a IH]; intros [|b0 b] Ha Hb E; simpl in E.
  - by injection E.
  - injection E as -> _. exfalso. apply Hb. left.
  - injection E as -> _. exfalso. apply Ha. left.
  - injection E as -> E. apply not_elem_of_cons in Ha as [_ Ha], Hb as [_ Hb].
    destruct (IH b Ha Hb E) as [-> ->]. done.
Qed.

Lemma key_id_second (a c : ascii) (rest : string) :
  is_key_id (String a (String c rest)) → char_in "abcdef0123456789-" c = true.
Proof.
  intros [_ Hs]. unfold all_chars in Hs. simpl in Hs.
  apply Forall_cons in Hs as [_ Hs]. by apply Forall_cons in Hs as [Hc _].
Qed.

Lemma region_no_colon (region : string) :
  region = "" ∨ is_region region → ":"%char ∉ chars region.
Proof.
  intros [->|Hreg]; [by intros ?%elem_of_nil|].
  apply (all_chars_not_in (lower_letters +:+ digits +:+ "-")); [done|].
  eapply is_region_chars;
    eauto using lower_set_region_set, digit_set_region_set. literal_chars.
Qed.

Lemma key_id_not_alias k : is_key_id k → is_alias k → False.
Proof. intros Hk (body & -> & _). by apply key_id_second in Hk. Qed.

Lemma key_id_not_arn k rest :
  is_key_id (k +:+ rest) → is_arn_start k → False.
Proof. intros Hk (region & account & -> & _). by apply key_id_second in Hk. Qed.

Lemma alias_not_arn k start rest :
  is_alias k → is_arn_start start → k = start +:+ rest → False.
Proof.
  intros (body & -> & _) (region & account & -> & _) E. simpl in E.
  injection E as E. discriminate.
Qed.

Lemma key_arn_not_alias_arn k : is_key_arn k → is_alias_arn k → False.
Proof.
  intros (start & id & -> & (r1 & a1 & -> & Hr1 & _ & Ha1) & _)
         (start' & al & E & (r2 & a2 & -> & Hr2 & _ & Ha2) & (body & -> & _)).
  apply (f_equal chars) in E. rewrite !chars_app in E. simpl in E.
  injection E as E. rewrite <-!app_assoc in E. simpl in E.
  apply app_sep_inj in E as [_ E]; [|by apply region_no_colon..].
  rewrite <-!app_assoc in E. simpl in E.
  apply app_sep_inj in E as [_ E];
    [|by apply (all_chars_not_in digits)..].
  discriminate.
Qed.

(** X16.  No string is matched by two of the four patterns of
    [validateKmsKey], so the order in which they are tried does not matter. *)
Theorem validateKmsKey_one_pattern kmsKey :
  Nat.b2n (MatchString (Seq BeginText kmsKeyIdPattern) kmsKey)
  + Nat.b2n (MatchString (Seq BeginText aliasPattern) kmsKey)
  + Nat.b2n (MatchString (Seq kmsArnStartPattern (Seq (lit "key/") kmsKeyIdPattern))
               kmsKey)
  + Nat.b2n (MatchString (Seq kmsArnStartPattern aliasPattern) kmsKey)
  ≤ 1.
Proof.
  destruct (MatchString (Seq BeginText kmsKeyIdPattern) kmsKey) eqn:E1;
  destruct (MatchString (Seq BeginText aliasPattern) kmsKey) eqn:E2;
  destruct (MatchString (Seq kmsArnStartPattern (Seq (lit "key/") kmsKeyIdPattern))
              kmsKey) eqn:E3;
  destruct (MatchString (Seq kmsArnStartPattern aliasPattern) kmsKey) eqn:E4;
  simpl; try lia; exfalso;
  rewrite ?key_id_shape in E1; rewrite ?alias_shape in E2;
  rewrite ?key_arn_shape in E3; rewrite ?alias_arn_shape in E4.
  all: try (by apply (key_id_not_alias kmsKey)).
  all: try (by apply (key_arn_not_alias_arn kmsKey)).
  all: try (destruct E3 as (start & id & -> & Hs & _);
            by first [apply (key_id_not_arn _ _ E1 Hs)
                     |apply (alias_not_arn _ _ _ E2 Hs eq_refl)]).
  all: destruct E4 as (start & al & -> & Hs & _);
       by first [apply (key_id_not_arn _ _ E1 Hs)
                |apply (alias_not_arn _ _ _ E2 Hs eq_refl)].
Qed.

(** ** The log and the errors *)

Lemma tail2_log_drop_region r : tail2 (log_drop_region r) = tail2 "`.".
Proof.
  unfold log_drop_region.
  rewrite tail2_suffix by (rewrite length_append; simpl; lia).
  by rewrite tail2_suffix by (simpl; lia).
Qed.

(** X17.  What [prepareRegions] writes to the log is not returned as an
    error: no line of the log is among the errors of [Prepare]. *)
Theorem Prepare_log_not_errs {TagMap : Type} (templateCleanOMIName : string → string)
    (ρ : RangeOrder) (c : OMIConfig TagMap) (accessConfig : option AccessConfig) :
  Forall (λ line, line ∉ out_errs (Prepare templateCleanOMIName ρ c accessConfig))
         (out_log (Prepare templateCleanOMIName ρ c accessConfig)).
Proof.
  change (out_log (Prepare templateCleanOMIName ρ c accessConfig))
    with (out_log (prepareRegions c accessConfig)).
  rewrite prepareRegions_log. apply Forall_fmap, Forall_forall. intros r _.
  cbn beta. unfold compose.
  rewrite occurrences_pos, occurrences_Prepare.
  other_checks tail2_log_drop_region. lia.
Qed.

(** ** The properties with a hypothesis, at sample records *)

Lemma Prepare_keeps_clean_regions_witness :
  NoDup (OMIRegions (sample "omi-1" "" ["a"; "b"] "" ∅ []))
  ∧ out_config (Prepare keep_name listed_order (sample "omi-1" "" ["a"; "b"] "" ∅ [])
                  (Some {| RawRegion := "c" |}))
    = sample "omi-1" "" ["a"; "b"] "" ∅ [].
Proof.
  assert (Hnd : NoDup (OMIRegions (sample "omi-1" "" ["a"; "b"] "" ∅ []))).
  { apply (bool_decide_unpack _). vm_compute. exact I. }
  split; [exact Hnd|].
  refine (proj1 (Prepare_keeps_clean_regions keep_name listed_order
                   (sample "omi-1" "" ["a"; "b"] "" ∅ [])
                   (Some {| RawRegion := "c" |}) Hnd _)).
  intros a [= <-]. apply (bool_decide_unpack _). vm_compute. exact I.
Defined.

Lemma Prepare_again_origin_key_witness :
  "b" ∈ OMIRegions (sample "omi-1" "" ["a"; "b"] "" {["a" := "k1"; "b" := "k2"]} [])
  ∧ occurrences (err_not_in_omi_regions "b")
      (out_errs
         (Prepare keep_name listed_order
            (out_config
               (Prepare keep_name listed_order
                  (sample "omi-1" "" ["a"; "b"] "" {["a" := "k1"; "b" := "k2"]} [])
                  (Some {| RawRegion := "b" |})))
            (Some {| RawRegion := "b" |})))
    = 1.
Proof.
  assert (Hin : "b" ∈ OMIRegions
                  (sample "omi-1" "" ["a"; "b"] "" {["a" := "k1"; "b" := "k2"]} [])).
  { simpl. repeat constructor. }
  split; [exact Hin|].
  refine (proj2 (proj2 (Prepare_again_origin_key keep_name listed_order listed_order
                   (sample "omi-1" "" ["a"; "b"] "" {["a" := "k1"; "b" := "k2"]} [])
                   {| RawRegion := "b" |} Hin _))).
  exists "k2". vm_compute. reflexivity.
Defined.
